(** * The synchronisation core of shared-surface

    A shallow embedding of [src/services/storageService.ts] (the class
    [StorageService]) and of the handler of the table component that asks
    the service for a reset.

    Conventions of the embedding:
    - the private fields of the class are the fields of [State];
    - every [new Date().toISOString()] is the argument [now] of the
      function that evaluates it;
    - the network is an input: the outcome of a [fetch] is a value of
      [GetResponse] or [PutResponse];
    - [x] and [y] are JavaScript numbers, binary64 floats, which the service
      only stores and copies: they are primitive floats here;
    - [version] is a JavaScript number used as an integer counter: it is a
      [Z] (the counter stays far below 2^53, where [+ 1] is exact);
    - an [await] is a point where other tasks may run.  [loadObjects] only
      touches the fields after its last [await], so it is one step;
      [processPendingOperations] touches them before and after its [fetch],
      so it is two steps, [flush_begin] and [flush_end]. *)

From Stdlib Require Import ZArith PrimFloat Ascii.
From stdpp Require Import base option list strings.

Local Open Scope Z_scope.

(** ** Data model (storageService.ts, lines 2-17) *)

Record StoredObject := {
  id : string;
  name : string;
  x : float;
  y : float;
  type : string;
  emoji : string;
  color : string;
  isText : option bool
}.

Record StorageData := {
  objects : list StoredObject;
  lastUpdated : string;
  version : Z
}.

(** The closures pushed on [pendingOperations] have one of three bodies
    (lines 130-136, 146-152, 162-166); a closure is the constructor that
    names its body together with the values it captured. *)
Inductive Operation :=
| OpAdd (object : StoredObject)
| OpUpdate (objectId : string) (x y : float)
| OpRemove (objectId : string).

(** The private fields of [StorageService] (lines 23-26), and [timeout],
    the variable captured by [debounce] (line 34): [true] while a timer set
    by [debouncedSave] has not fired yet. *)
Record State := {
  cache : option StorageData;
  pendingOperations : list Operation;
  isProcessing : bool;
  lastVersion : Z;
  timeout : bool
}.

(** The state of a freshly constructed service (line 205). *)
Definition initial : State :=
  {| cache := None; pendingOperations := []; isProcessing := false;
     lastVersion := 0; timeout := false |}.

Definition set_cache (c : option StorageData) (s : State) : State :=
  {| cache := c; pendingOperations := pendingOperations s;
     isProcessing := isProcessing s; lastVersion := lastVersion s;
     timeout := timeout s |}.

Definition set_pendingOperations (q : list Operation) (s : State) : State :=
  {| cache := cache s; pendingOperations := q;
     isProcessing := isProcessing s; lastVersion := lastVersion s;
     timeout := timeout s |}.

Definition set_isProcessing (b : bool) (s : State) : State :=
  {| cache := cache s; pendingOperations := pendingOperations s;
     isProcessing := b; lastVersion := lastVersion s;
     timeout := timeout s |}.

Definition set_lastVersion (v : Z) (s : State) : State :=
  {| cache := cache s; pendingOperations := pendingOperations s;
     isProcessing := isProcessing s; lastVersion := v;
     timeout := timeout s |}.

Definition set_timeout (b : bool) (s : State) : State :=
  {| cache := cache s; pendingOperations := pendingOperations s;
     isProcessing := isProcessing s; lastVersion := lastVersion s;
     timeout := b |}.

(** ** The remote store as the service sees it *)

(** The [record] member of a GET body.  A member that is missing, or that
    is falsy for [||], is told apart from one that is present: [r_objects]
    is [None] when [record.objects] is missing (an array, even an empty
    one, is truthy). *)
Record RecordJson := {
  r_objects : option (list StoredObject);
  r_lastUpdated : option string;
  r_version : option Z
}.

Inductive Body :=
| BodyUnparsable                          (* [response.json()] rejects *)
| BodyNull                                (* the body is the JSON [null] *)
| BodyJson (record : option RecordJson).  (* [data.record], when it is there *)

Inductive GetResponse :=
| GetNetworkError                         (* [fetch] rejects *)
| GetHttp (status : Z) (body : Body).

Inductive PutResponse :=
| PutNetworkError
| PutHttp (status : Z).

(** [response.ok]: the status is in the range 200-299. *)
Definition ok (status : Z) : bool := (200 <=? status) && (status <=? 299).

(** [v || d] on a number that may be missing: 0 is falsy. *)
Definition number_or (v : option Z) (d : Z) : Z :=
  match v with
  | Some n => if n =? 0 then d else n
  | None => d
  end.

(** [v || d] on a string that may be missing: the empty string is falsy. *)
Definition string_or (v : option string) (d : string) : string :=
  match v with
  | Some EmptyString => d
  | Some t => t
  | None => d
  end.

(** [v || d] on an array that may be missing. *)
Definition array_or {A} (v : option (list A)) (d : list A) : list A :=
  match v with
  | Some l => l
  | None => d
  end.

(** ** loadObjects (lines 41-77) *)

(** The body of the [try] up to the assignment of [this.cache] (lines
    43-63): [None] when it throws. *)
Definition loadObjects_try (r : GetResponse) (now : string)
  : option StorageData :=
  match r with
  | GetNetworkError => None
  | GetHttp status body =>
      if ok status then
        match body with
        | BodyUnparsable => None
        | BodyNull => None
        | BodyJson data_record =>
            let record :=
              match data_record with
              | Some rec => rec
              | None => {| r_objects := Some []; r_lastUpdated := Some now;
                           r_version := Some 1 |}
              end in
            Some {| objects := array_or (r_objects record) [];
                    lastUpdated := string_or (r_lastUpdated record) now;
                    version := number_or (r_version record) 1 |}
        end
      else None
  end.

Definition loadObjects (r : GetResponse) (now : string) (s : State)
  : State * list StoredObject :=
  match loadObjects_try r now with
  | Some c => (set_lastVersion (version c) (set_cache (Some c) s), objects c)
  | None =>
      (set_cache (Some {| objects := []; lastUpdated := now; version := 1 |}) s,
       [])
  end.

(** ** The queued mutations (lines 130-136, 146-152, 162-166) *)

(** What the body of a closure does to the document in [this.cache]. *)
Definition apply_operation (op : Operation) (c : StorageData) : StorageData :=
  match op with
  | OpAdd object =>
      {| objects := filter (λ obj, id obj ≠ id object) (objects c) ++ [object];
         lastUpdated := lastUpdated c; version := version c |}
  | OpUpdate objectId x y =>
      {| objects :=
           map (λ obj,
                  if decide (id obj = objectId)
                  then {| id := id obj; name := name obj; x := x; y := y;
                          type := type obj; emoji := emoji obj;
                          color := color obj; isText := isText obj |}
                  else obj) (objects c);
         lastUpdated := lastUpdated c; version := version c |}
  | OpRemove objectId =>
      {| objects := filter (λ obj, id obj ≠ objectId) (objects c);
         lastUpdated := lastUpdated c; version := version c |}
  end.

(** Calling a closure: [if (this.cache) { ... }]. *)
Definition run_operation (s : State) (op : Operation) : State :=
  match cache s with
  | Some c => set_cache (Some (apply_operation op c)) s
  | None => s
  end.

(** [queueOperation] (lines 120-123): push, then [debouncedSave()], which
    clears the timer and sets a new one (lines 35-38). *)
Definition queueOperation (op : Operation) (s : State) : State :=
  set_timeout true (set_pendingOperations (pendingOperations s ++ [op]) s).

(** [if (!this.cache) { await this.loadObjects(); }], the first statement
    of the three mutating methods; [r] is what the GET answers if it is
    issued. *)
Definition ensure_loaded (r : GetResponse) (now : string) (s : State) : State :=
  match cache s with
  | Some _ => s
  | None => fst (loadObjects r now s)
  end.

Definition addObject (r : GetResponse) (now : string) (object : StoredObject)
    (s : State) : State * bool :=
  (queueOperation (OpAdd object) (ensure_loaded r now s), true).

Definition updateObject (r : GetResponse) (now : string) (objectId : string)
    (x y : float) (s : State) : State * bool :=
  (queueOperation (OpUpdate objectId x y) (ensure_loaded r now s), true).

Definition removeObject (r : GetResponse) (now : string) (objectId : string)
    (s : State) : State * bool :=
  (queueOperation (OpRemove objectId) (ensure_loaded r now s), true).

(** [getCurrentObjects] (lines 200-202): [this.cache?.objects || []]. *)
Definition getCurrentObjects (s : State) : list StoredObject :=
  match cache s with
  | Some c => objects c
  | None => []
  end.

(** ** processPendingOperations (lines 79-118) *)

(** How the part before the [fetch] of line 95 ends. *)
Inductive FlushStart :=
| Skipped                       (* line 81: [return true], nothing done *)
| Issued (body : StorageData)   (* the PUT is sent, [body] is its JSON *)
| Threw.                        (* an exception before the [fetch] *)

(** The guard of line 80. *)
Definition skips (s : State) : bool :=
  isProcessing s
  || (length (pendingOperations s) =? 0)%nat
  || match cache s with Some _ => false | None => true end.

(** [catch] then [finally] (lines 110-117); the method returns [false]. *)
Definition flush_failed (s : State) : State :=
  set_isProcessing false (set_pendingOperations [] s).

(** Lines 80-102, up to the [await].  [this.cache.version = ...] on a
    cache that is [null] would be a TypeError: the guard excludes it, see
    [flush_begin_never_throws]. *)
Definition flush_begin (now : string) (s : State) : State * FlushStart :=
  if skips s then (s, Skipped)
  else
    let s1 := set_isProcessing true s in
    let s2 := foldl run_operation s1 (pendingOperations s1) in
    let s3 := set_pendingOperations [] s2 in
    match cache s3 with
    | Some c =>
        let c' := {| objects := objects c; lastUpdated := now;
                     version := lastVersion s3 + 1 |} in
        (set_cache (Some c') s3, Issued c')
    | None => (flush_failed s3, Threw)
    end.

(** Lines 104-117, from the moment the [fetch] settles with [r]; [s] is the
    state at that moment, which other tasks may have changed meanwhile. *)
Definition flush_end (r : PutResponse) (s : State) : State * bool :=
  match r with
  | PutNetworkError => (flush_failed s, false)
  | PutHttp status =>
      if ok status then
        match cache s with
        | Some c => (set_isProcessing false (set_lastVersion (version c) s), true)
        | None => (flush_failed s, false)
        end
      else (flush_failed s, false)
  end.

(** A whole call during which no other task runs: the final state, the
    returned boolean and the body of the PUT, if one was sent. *)
Definition processPendingOperations (r : PutResponse) (now : string) (s : State)
  : State * bool * option StorageData :=
  match flush_begin now s with
  | (s1, Skipped) => (s1, true, None)
  | (s1, Threw) => (s1, false, None)
  | (s1, Issued body) =>
      let (s2, b) := flush_end r s1 in (s2, b, Some body)
  end.

(** [forceSave] (lines 194-197).  [this.debouncedSave] is the arrow function
    that [debounce] returned, which has no property [timeout]: the argument
    of [clearTimeout] is [undefined] and no timer is cleared. *)
Definition forceSave (r : PutResponse) (now : string) (s : State)
  : State * bool * option StorageData :=
  processPendingOperations r now s.

(** ** syncObjects (lines 171-191) *)

(** The callback of [forEach] (lines 180-184): [find] gives an object, which
    is truthy, or [undefined]. *)
Definition merge_step (serverObjects : list StoredObject)
    (mergedObjects : list StoredObject) (localObj : StoredObject)
  : list StoredObject :=
  match list_find (λ serverObj, id serverObj = id localObj) serverObjects with
  | Some _ => mergedObjects
  | None => mergedObjects ++ [localObj]
  end.

(** Nothing in the [try] throws ([loadObjects] catches its own errors), so
    the [catch] of lines 187-190 is never entered. *)
Definition syncObjects (r : GetResponse) (now : string)
    (localObjects : list StoredObject) (s : State)
  : State * list StoredObject :=
  let (s1, serverObjects) := loadObjects r now s in
  (s1, foldl (merge_step serverObjects) serverObjects localObjects).

(** ** The service on the event loop *)

(** What can happen to the service: a call of a public method, the debounce
    timer firing, the PUT in flight settling. *)
Inductive Event :=
| CallLoad (r : GetResponse) (now : string)
| CallAdd (r : GetResponse) (now : string) (object : StoredObject)
| CallUpdate (r : GetResponse) (now : string) (objectId : string) (x y : float)
| CallRemove (r : GetResponse) (now : string) (objectId : string)
| CallSync (r : GetResponse) (now : string) (localObjects : list StoredObject)
| CallForceSave (now : string)
| TimerFires (now : string)
| PutSettles (r : PutResponse).

(** The service together with its side of the network: the PUT requests
    not settled yet, every PUT body sent so far, and the document the
    Remote Store last accepted. *)
Record World := {
  service : State;
  in_flight : list StorageData;
  sent : list StorageData;
  stored : option StorageData
}.

Definition with_service (s : State) (w : World) : World :=
  {| service := s; in_flight := in_flight w; sent := sent w;
     stored := stored w |}.

Definition put_ok (r : PutResponse) : bool :=
  match r with
  | PutNetworkError => false
  | PutHttp status => ok status
  end.

(** A call of [processPendingOperations] up to its [await]. *)
Definition start_flush (now : string) (w : World) : World :=
  match flush_begin now (service w) with
  | (s1, Issued body) =>
      {| service := s1; in_flight := in_flight w ++ [body];
         sent := sent w ++ [body]; stored := stored w |}
  | (s1, _) => with_service s1 w
  end.

Definition step (w : World) (e : Event) : World :=
  match e with
  | CallLoad r now => with_service (fst (loadObjects r now (service w))) w
  | CallAdd r now object =>
      with_service (fst (addObject r now object (service w))) w
  | CallUpdate r now objectId x y =>
      with_service (fst (updateObject r now objectId x y (service w))) w
  | CallRemove r now objectId =>
      with_service (fst (removeObject r now objectId (service w))) w
  | CallSync r now localObjects =>
      with_service (fst (syncObjects r now localObjects (service w))) w
  | CallForceSave now => start_flush now w
  | TimerFires now =>
      if timeout (service w)
      then start_flush now (with_service (set_timeout false (service w)) w)
      else w
  | PutSettles r =>
      match in_flight w with
      | [] => w
      | body :: others =>
          {| service := fst (flush_end r (service w));
             in_flight := others;
             sent := sent w;
             stored := if put_ok r then Some body else stored w |}
      end
  end.

Definition run (w : World) (events : list Event) : World := foldl step w events.

(** ** The arrays behind the lists

    [this.cache.objects] is a reference to an array, [loadObjects] hands
    that very reference to its caller, and [push] changes an array in
    place.  This second model keeps the arrays in a heap, so that what is
    shared and what is copied is explicit; [contents] reads a machine back
    as a [State]. *)

(** The arrays of [StoredObject] allocated so far; a reference is the index
    of its array. *)
Abbreviation ref := nat (only parsing).
Abbreviation Heap := (list (list StoredObject)) (only parsing).

Definition alloc (a : list StoredObject) (h : Heap) : Heap * ref :=
  (h ++ [a], length h).

Definition read (h : Heap) (l : ref) : list StoredObject :=
  default [] (h !! l).

(** [array.push(o)] on the array at [l]. *)
Definition push (l : ref) (o : StoredObject) (h : Heap) : Heap :=
  alter (λ a, a ++ [o]) l h.

Record CacheRef := {
  objects_at : ref;
  lastUpdated_of : string;
  version_of : Z
}.

Record Machine := {
  heap : Heap;
  m_cache : option CacheRef;
  m_pendingOperations : list Operation;
  m_isProcessing : bool;
  m_lastVersion : Z;
  m_timeout : bool
}.

Definition document (h : Heap) (c : CacheRef) : StorageData :=
  {| objects := read h (objects_at c); lastUpdated := lastUpdated_of c;
     version := version_of c |}.

Definition contents (m : Machine) : State :=
  {| cache := document (heap m) <$> m_cache m;
     pendingOperations := m_pendingOperations m;
     isProcessing := m_isProcessing m;
     lastVersion := m_lastVersion m;
     timeout := m_timeout m |}.

Definition set_heap (h : Heap) (m : Machine) : Machine :=
  {| heap := h; m_cache := m_cache m;
     m_pendingOperations := m_pendingOperations m;
     m_isProcessing := m_isProcessing m; m_lastVersion := m_lastVersion m;
     m_timeout := m_timeout m |}.

Definition set_m_cache (c : CacheRef) (m : Machine) : Machine :=
  {| heap := heap m; m_cache := Some c;
     m_pendingOperations := m_pendingOperations m;
     m_isProcessing := m_isProcessing m; m_lastVersion := m_lastVersion m;
     m_timeout := m_timeout m |}.

Definition set_m_lastVersion (v : Z) (m : Machine) : Machine :=
  {| heap := heap m; m_cache := m_cache m;
     m_pendingOperations := m_pendingOperations m;
     m_isProcessing := m_isProcessing m; m_lastVersion := v;
     m_timeout := m_timeout m |}.

(** [loadObjects]: the array of [record.objects] comes out of
    [response.json()] (or is the literal [[]]), so it is new; the method
    returns [this.cache.objects], the same reference.  In the [catch] the
    cache gets one new empty array (line 71) and the caller another (line
    75). *)
Definition loadObjects_heap (r : GetResponse) (now : string) (m : Machine)
  : Machine * ref :=
  match loadObjects_try r now with
  | Some c =>
      let (h1, l) := alloc (objects c) (heap m) in
      (set_m_lastVersion (version c)
         (set_m_cache {| objects_at := l; lastUpdated_of := lastUpdated c;
                         version_of := version c |} (set_heap h1 m)), l)
  | None =>
      let (h1, l) := alloc [] (heap m) in
      let (h2, l') := alloc [] h1 in
      (set_m_cache {| objects_at := l; lastUpdated_of := now; version_of := 1 |}
         (set_heap h2 m), l')
  end.

(** The callback of [forEach] in [syncObjects]: [find] reads the array at
    [serverObjects] as it is now, [push] changes the one at
    [mergedObjects]. *)
Definition merge_step_heap (serverObjects mergedObjects : ref) (h : Heap)
    (localObj : StoredObject) : Heap :=
  match list_find (λ serverObj, id serverObj = id localObj)
          (read h serverObjects) with
  | Some _ => h
  | None => push mergedObjects localObj h
  end.

(** [syncObjects]: [[...serverObjects]] is a new array with the same
    elements. *)
Definition syncObjects_heap (r : GetResponse) (now : string)
    (localObjects : ref) (m : Machine) : Machine * ref :=
  let (m1, serverObjects) := loadObjects_heap r now m in
  let (h2, mergedObjects) := alloc (read (heap m1) serverObjects) (heap m1) in
  (set_heap
     (foldl (merge_step_heap serverObjects mergedObjects) h2
        (read h2 localObjects)) m1,
   mergedObjects).

(** [getCurrentObjects]: the array of the cache itself, or a new empty
    one. *)
Definition getCurrentObjects_heap (m : Machine) : Machine * ref :=
  match m_cache m with
  | Some c => (m, objects_at c)
  | None => let (h1, l) := alloc [] (heap m) in (set_heap h1 m, l)
  end.

(** The closures: [filter] and [map] build a new array, which is assigned
    to [this.cache.objects]; [push] then changes that new array. *)
Definition run_operation_heap (m : Machine) (op : Operation) : Machine :=
  match m_cache m with
  | None => m
  | Some c =>
      let old := read (heap m) (objects_at c) in
      let (h1, l) :=
        alloc
          match op with
          | OpAdd object => filter (λ obj, id obj ≠ id object) old
          | OpUpdate objectId x y =>
              map (λ obj,
                     if decide (id obj = objectId)
                     then {| id := id obj; name := name obj; x := x; y := y;
                             type := type obj; emoji := emoji obj;
                             color := color obj; isText := isText obj |}
                     else obj) old
          | OpRemove objectId => filter (λ obj, id obj ≠ objectId) old
          end (heap m) in
      let h2 :=
        match op with
        | OpAdd object => push l object h1
        | _ => h1
        end in
      set_m_cache {| objects_at := l; lastUpdated_of := lastUpdated_of c;
                     version_of := version_of c |} (set_heap h2 m)
  end.

(** ** The reset request of the table

    [handleCustomObject] of the table component in the variant that knows
    the input [__reset]; it is the only caller of a reset of the service. *)

(** The names that are functions on the exported [storageService]: the
    methods of the class (lines 33-202) and its field [debouncedSave]. *)
Definition StorageService_functions : list string :=
  ["debouncedSave"; "debounce"; "loadObjects"; "processPendingOperations";
   "queueOperation"; "addObject"; "updateObject"; "removeObject";
   "syncObjects"; "forceSave"; "getCurrentObjects"].

Record TableObject := {
  t_id : string;
  t_type : string;
  t_emoji : string;
  t_color : string;
  t_x : float;
  t_y : float;
  t_isText : option bool
}.

Inductive HandlerResult :=
| Rejected (error : string)
| ReturnedNull
| ReturnedObject (type emoji color : string) (isText : bool).

Section Handler.

(** [String.prototype.trim], and the test
    [isSingleChar || /[\p{Emoji}...]/u.test(trimmed)], both left to the
    platform. *)
Variable trim : string → string.
Variable isEmoji : string → bool.

(** The result, the [objects] of the component afterwards, and the
    methods of the service that were called. *)
Definition handleCustomObject (input : string) (objects : list TableObject)
  : HandlerResult * list TableObject * list string :=
  let trimmed := trim input in
  if decide (trimmed = "__reset") then
    if decide ("resetObjects" ∈ StorageService_functions) then
      (ReturnedNull, [], ["resetObjects"])
    else
      (Rejected "TypeError: storageService.resetObjects is not a function",
       objects, [])
  else
    (ReturnedObject
       (if isEmoji trimmed then "custom-emoji" else "paper")
       trimmed
       (if isEmoji trimmed then "bg-purple-600" else "bg-white")
       (negb (isEmoji trimmed)),
     objects, []).

End Handler.

(** ** The handlers of the table component

    [handleObjectMove] and [handleRemoveObject] of [InteractiveTable.tsx], and
    the end that its adding handlers share.  A handler changes [objects], the
    list the component shows, and calls the service; [isSaving] and the
    toasts are left out.  The calls of the service do not reject, so the
    [catch] blocks of the handlers are never entered. *)

Record Table := {
  view : list TableObject;
  backend : World
}.

(** [tableObjectToStored] (lines 83-92): the name is the type. *)
Definition tableObjectToStored (obj : TableObject) : StoredObject :=
  {| id := t_id obj; name := t_type obj; x := t_x obj; y := t_y obj;
     type := t_type obj; emoji := t_emoji obj; color := t_color obj;
     isText := t_isText obj |}.

(** The end of [handleDrop], [handleTouchStart] and the listener of
    [customEmoji] (lines 201-205, 241-244, 156-160):
    [setObjects(prev => [...prev, newObject])], then [addObject]. *)
Definition placeObject (r : GetResponse) (now : string) (newObject : TableObject)
    (t : Table) : Table :=
  {| view := view t ++ [newObject];
     backend := step (backend t)
                  (CallAdd r now (tableObjectToStored newObject)) |}.

(** [handleObjectMove] (lines 252-274). *)
Definition handleObjectMove (r : GetResponse) (now : string) (objectId : string)
    (newX newY : float) (t : Table) : Table :=
  {| view :=
       map (λ obj,
              if decide (t_id obj = objectId)
              then {| t_id := t_id obj; t_type := t_type obj;
                      t_emoji := t_emoji obj; t_color := t_color obj;
                      t_x := newX; t_y := newY; t_isText := t_isText obj |}
              else obj) (view t);
     backend := step (backend t) (CallUpdate r now objectId newX newY) |}.

(** [handleRemoveObject] (lines 276-297): [removeObject], then [forceSave],
    whose PUT, if it sends one, is in flight when this step ends. *)
Definition handleRemoveObject (r : GetResponse) (now now' : string)
    (objectId : string) (t : Table) : Table :=
  {| view := filter (λ obj, t_id obj ≠ objectId) (view t);
     backend := step (step (backend t) (CallRemove r now objectId))
                  (CallForceSave now') |}.

(** ** The arrays behind the lists: calls in sequence *)

Inductive ArrayCall :=
| ArrayLoad (r : GetResponse) (now : string)
| ArraySync (r : GetResponse) (now : string) (localObjects : ref)
| ArrayRun (op : Operation)
| ArrayCurrent.

Definition array_step (m : Machine) (a : ArrayCall) : Machine :=
  match a with
  | ArrayLoad r now => fst (loadObjects_heap r now m)
  | ArraySync r now localObjects => fst (syncObjects_heap r now localObjects m)
  | ArrayRun op => run_operation_heap m op
  | ArrayCurrent => fst (getCurrentObjects_heap m)
  end.

(** ** The text of a paper note

    [formatTextForPaper] of [DraggableObject.tsx] (lines 106-135).  A string
    is the list of its UTF-16 code units, of which the function only looks at
    the space and writes the dot. *)

Section Paper.

Context {char : Type} `{EqDecision char}.
Variable space dot : char.

(** [s.split(' ')]: never an empty array. *)
Fixpoint split_on (s : list char) : list (list char) :=
  match s with
  | [] => [[]]
  | c :: rest =>
      if decide (c = space) then [] :: split_on rest
      else match split_on rest with
           | word :: words => (c :: word) :: words
           | [] => [[c]]
           end
  end.

(** [a.join(' ')]. *)
Fixpoint join_with (a : list (list char)) : list char :=
  match a with
  | [] => []
  | [word] => word
  | word :: words => word ++ space :: join_with words
  end.

(** The loop of lines 113-124 from [words] on, with [lines] and
    [currentLine] as they are when it gets there. *)
Fixpoint wrap (maxCharsPerLine maxLines : nat) (words : list (list char))
    (lines : list (list char)) (currentLine : list char)
  : list (list char) * list char :=
  match words with
  | [] => (lines, currentLine)
  | word :: rest =>
      if (maxCharsPerLine <? length currentLine + length word + 1)%nat
         && (0 <? length currentLine)%nat
      then
        if (maxLines <=? length (lines ++ [currentLine]))%nat
        then (lines ++ [currentLine], word)
        else wrap maxCharsPerLine maxLines rest (lines ++ [currentLine]) word
      else
        wrap maxCharsPerLine maxLines rest lines
          match currentLine with
          | [] => word
          | _ => currentLine ++ space :: word
          end
  end.

(** [line.slice(0, -3) + '...']. *)
Definition ellipsis (line : list char) : list char :=
  take (length line - 3) line ++ [dot; dot; dot].

Definition formatTextForPaper (isMobile : bool) (text : list char)
  : list (list char) :=
  let words := split_on text in
  let maxCharsPerLine := if isMobile then 8%nat else 12%nat in
  let maxLines := 10%nat in
  let (lines, currentLine) := wrap maxCharsPerLine maxLines words [] [] in
  let lines :=
    match currentLine with
    | [] => lines
    | _ => if (length lines <? maxLines)%nat then lines ++ [currentLine]
           else lines
    end in
  if (length lines =? maxLines)%nat
     && (length (split_on (join_with lines)) <? length words)%nat
  then alter ellipsis (maxLines - 1)%nat lines
  else lines.

End Paper.

(** The function on texts of ASCII characters. *)
Definition paper (isMobile : bool) (text : string) : list string :=
  map String.string_of_list_ascii
    (formatTextForPaper " "%char "."%char isMobile (String.list_ascii_of_string text)).

(** ** Vocabulary of the properties *)

(** The document that [loadObjects] falls back to. *)
Definition empty_document (now : string) : StorageData :=
  {| objects := []; lastUpdated := now; version := 1 |}.

(** A GET that fails: the transport fails, the status is not a success, or
    the payload is malformed (not JSON, [null], or without a [record]). *)
Definition malformed (body : Body) : Prop :=
  match body with
  | BodyUnparsable | BodyNull | BodyJson None => True
  | BodyJson (Some _) => False
  end.

Definition load_fails (r : GetResponse) : Prop :=
  match r with
  | GetNetworkError => True
  | GetHttp status body => ok status = false ∨ malformed body
  end.

(** A GET that succeeds with the document [d]: every member is there and
    none is falsy. *)
Definition load_succeeds_with (r : GetResponse) (d : StorageData) : Prop :=
  ∃ status,
    ok status = true ∧ lastUpdated d ≠ EmptyString ∧ version d ≠ 0 ∧
    r = GetHttp status
          (BodyJson (Some {| r_objects := Some (objects d);
                             r_lastUpdated := Some (lastUpdated d);
                             r_version := Some (version d) |})).

(** The items that a response carries. *)
Definition served (r : GetResponse) : list StoredObject :=
  match r with
  | GetHttp status (BodyJson (Some record)) =>
      if ok status then array_or (r_objects record) [] else []
  | _ => []
  end.

(** The items of [localObjects] whose id the server does not have. *)
Definition local_only (serverObjects localObjects : list StoredObject)
  : list StoredObject :=
  filter (λ localObj, id localObj ∉ map id serverObjects) localObjects.

(** The queued operations applied to a document, the oldest first. *)
Definition apply_all (ops : list Operation) (c : StorageData) : StorageData :=
  foldl (λ c op, apply_operation op c) c ops.

(** The id an operation is about. *)
Definition target (op : Operation) : string :=
  match op with
  | OpAdd object => id object
  | OpUpdate objectId _ _ => objectId
  | OpRemove objectId => objectId
  end.

(** The reading of [forceSave] under which [true] stands for a write: the
    result is [true] exactly when a PUT was sent and it succeeded. *)
Definition true_means_written (r : PutResponse) (now : string) (s : State)
  : Prop :=
  snd (fst (forceSave r now s)) = true ↔
  (is_Some (snd (forceSave r now s)) ∧ put_ok r = true).

(** The two ways [processPendingOperations] gets called. *)
Definition flush_request (now : string) (forced : bool) : Event :=
  if forced then CallForceSave now else TimerFires now.

Definition is_settle (e : Event) : Prop :=
  match e with
  | PutSettles _ => True
  | _ => False
  end.

Definition is_mutation (e : Event) : Prop :=
  match e with
  | CallAdd _ _ _ | CallUpdate _ _ _ _ _ | CallRemove _ _ _ => True
  | _ => False
  end.

(** The flag [isProcessing] and the requests in flight agree. *)
Definition coherent (w : World) : Prop :=
  if isProcessing (service w)
  then length (in_flight w) = 1%nat
  else in_flight w = [].

(** One write of the document: some mutating calls, at least one, then a
    flush, by the timer or forced, and the answer of the Remote Store. *)
Record Round := {
  mutations : list Event;
  flushed_at : string;
  forced : bool;
  answer : PutResponse
}.

Definition round_events (rd : Round) : list Event :=
  mutations rd
  ++ [flush_request (flushed_at rd) (forced rd); PutSettles (answer rd)].

Definition successful (rd : Round) : Prop :=
  mutations rd ≠ [] ∧ Forall is_mutation (mutations rd)
  ∧ put_ok (answer rd) = true.





(** The operation that a mutating call queues. *)
Definition operation_of (e : Event) : option Operation :=
  match e with
  | CallAdd _ _ object => Some (OpAdd object)
  | CallUpdate _ _ objectId x y => Some (OpUpdate objectId x y)
  | CallRemove _ _ objectId => Some (OpRemove objectId)
  | _ => None
  end.

Definition operations_of (events : list Event) : list Operation :=
  omap operation_of events.

(** The items the cache holds once the queue is applied to it. *)
Definition expected (s : State) : list StoredObject :=
  match cache s with
  | Some c => objects (apply_all (pendingOperations s) c)
  | None => []
  end.

(** A stored object as the table component reads it. *)
Definition as_table (obj : StoredObject) : TableObject :=
  {| t_id := id obj; t_type := type obj; t_emoji := emoji obj;
     t_color := color obj; t_x := x obj; t_y := y obj;
     t_isText := isText obj |}.

(** The component shows what the cache holds once the queue is applied. *)
Definition mirrors (t : Table) : Prop :=
  view t = map as_table (expected (service (backend t))).

(** A world in which the service was just constructed. *)
Definition fresh : World :=
  {| service := initial; in_flight := []; sent := []; stored := None |}.

(** The call of the public method that queues [op]. *)
Definition call (r : GetResponse) (now : string) (op : Operation) : Event :=
  match op with
  | OpAdd object => CallAdd r now object
  | OpUpdate objectId x y => CallUpdate r now objectId x y
  | OpRemove objectId => CallRemove r now objectId
  end.


(** Sample data for the examples: a cup with the given id and place, a
    service whose cache holds the given items at version 1, and a world
    around it whose Remote Store holds the same document. *)
Definition cup (objectId : string) (x y : float) : StoredObject :=
  {| id := objectId; name := "cup"; x := x; y := y; type := "cup";
     emoji := "c"; color := "bg-amber-600"; isText := None |}.

Definition loaded (items : list StoredObject) (queue : list Operation) : State :=
  {| cache := Some {| objects := items; lastUpdated := "t0"; version := 1 |};
     pendingOperations := queue; isProcessing := false; lastVersion := 1;
     timeout := true |}.

Definition world_of (items : list StoredObject) (queue : list Operation) : World :=
  {| service := loaded items queue; in_flight := []; sent := [];
     stored := Some {| objects := items; lastUpdated := "t0"; version := 1 |} |}.

(** ** loadObjects *)

Lemma load_fails_throws_or_defaults r now :
  load_fails r →
  loadObjects_try r now = None ∨ loadObjects_try r now = Some (empty_document now).
Proof.
  destruct r as [|status body]; simpl; [by left|].
  intros [Hst|Hbody].
  - rewrite Hst. by left.
  - destruct (ok status); [|by left].
    destruct body as [| |[rec|]]; simpl in Hbody; try done; try by left.
    right. unfold empty_document. simpl. by destruct now.
Qed.

Lemma load_succeeds_try r d now :
  load_succeeds_with r d → loadObjects_try r now = Some d.
Proof.
  intros (status & Hok & Hlu & Hv & ->). simpl. rewrite Hok. simpl.
  destruct d as [objs lu v]; simpl in *. f_equal. f_equal.
  - by destruct lu.
  - destruct (Z.eqb_spec v 0); congruence.
Qed.

Lemma loadObjects_success r now s d :
  load_succeeds_with r d →
  cache (fst (loadObjects r now s)) = Some d ∧
  lastVersion (fst (loadObjects r now s)) = version d ∧
  snd (loadObjects r now s) = objects d.
Proof.
  intros Hd. unfold loadObjects. by rewrite (load_succeeds_try r d now Hd).
Qed.

(** C7.  Whatever makes the load fail (a network error, a status that is
    not a success, a payload that is not JSON, is [null] or has no record),
    [loadObjects] returns normally: it installs the empty document
    [{objects: [], version: 1, lastUpdated: now}] as the cache and returns
    the empty list.  When the load succeeds with a document, that document
    becomes the cache and its version the last-known version. *)
Theorem loadObjects_swallows_failure (r : GetResponse) (now : string) (s : State) :
  (load_fails r →
     cache (fst (loadObjects r now s)) = Some (empty_document now) ∧
     snd (loadObjects r now s) = []) ∧
  (∀ d, load_succeeds_with r d →
     cache (fst (loadObjects r now s)) = Some d ∧
     lastVersion (fst (loadObjects r now s)) = version d ∧
     snd (loadObjects r now s) = objects d).
Proof.
  split.
  - intros Hf. unfold loadObjects.
    destruct (load_fails_throws_or_defaults r now Hf) as [-> | ->]; done.
  - intros d Hd. by apply loadObjects_success.
Qed.

Lemma loadObjects_swallows_failure_witness :
  (cache (fst (loadObjects (GetHttp 503 BodyUnparsable) "t1" initial))
     = Some (empty_document "t1") ∧
   snd (loadObjects (GetHttp 503 BodyUnparsable) "t1" initial) = []) ∧
  (let d := {| objects := []; lastUpdated := "t0"; version := 4 |} in
   let r := GetHttp 200 (BodyJson (Some {| r_objects := Some [];
                                           r_lastUpdated := Some "t0";
                                           r_version := Some 4 |})) in
   cache (fst (loadObjects r "t1" initial)) = Some d ∧
   lastVersion (fst (loadObjects r "t1" initial)) = version d ∧
   snd (loadObjects r "t1" initial) = objects d).
Proof.
  split.
  - apply (loadObjects_swallows_failure (GetHttp 503 BodyUnparsable) "t1" initial).
    simpl. by left.
  - simpl.
    apply (loadObjects_swallows_failure
             (GetHttp 200 (BodyJson (Some {| r_objects := Some [];
                                             r_lastUpdated := Some "t0";
                                             r_version := Some 4 |})))
             "t1" initial).
    exists 200. simpl. repeat split; done.
Defined.

(** A record that is there but lacks members is not a failure: each missing
    or falsy member gets its own default and the others are kept. *)
Lemma loadObjects_defaults_members status rec now s :
  ok status = true →
  loadObjects (GetHttp status (BodyJson (Some rec))) now s =
    (set_lastVersion (number_or (r_version rec) 1)
       (set_cache (Some {| objects := array_or (r_objects rec) [];
                           lastUpdated := string_or (r_lastUpdated rec) now;
                           version := number_or (r_version rec) 1 |}) s),
     array_or (r_objects rec) []).
Proof. intros Hok. unfold loadObjects. simpl. by rewrite Hok. Qed.

(** On the paths that throw, the other fields, [lastVersion] among them,
    keep their values. *)
Lemma loadObjects_catch r now s :
  loadObjects_try r now = None →
  loadObjects r now s = (set_cache (Some (empty_document now)) s, []).
Proof. intros H. unfold loadObjects. by rewrite H. Qed.

Lemma loadObjects_cache_present r now s :
  ∃ c, cache (fst (loadObjects r now s)) = Some c
       ∧ snd (loadObjects r now s) = objects c.
Proof. unfold loadObjects. destruct (loadObjects_try r now); eauto. Qed.

Lemma loadObjects_returns_served r now s :
  snd (loadObjects r now s) = served r.
Proof.
  unfold loadObjects, served.
  destruct r as [|status [| |[rec|]]]; simpl; try done;
    destruct (ok status); done.
Qed.

(** ** syncObjects *)

Lemma merge_step_spec serverObjects mergedObjects localObj :
  merge_step serverObjects mergedObjects localObj =
    mergedObjects ++ local_only serverObjects [localObj].
Proof.
  unfold merge_step, local_only.
  destruct (list_find _ serverObjects) as [[i serverObj]|] eqn:Hfind.
  - apply list_find_Some in Hfind as (Hi & Heq & _).
    rewrite filter_cons_False, filter_nil, app_nil_r; [done|].
    intros Hnot. apply Hnot. rewrite <- Heq.
    apply list_elem_of_fmap. exists serverObj. split; [done|].
    by eapply list_elem_of_lookup_2.
  - apply list_find_None in Hfind.
    rewrite filter_cons_True; [done|].
    intros (serverObj & Heq & Hin)%list_elem_of_fmap.
    rewrite Forall_forall in Hfind. by apply (Hfind serverObj).
Qed.

Lemma foldl_merge_step serverObjects localObjects : ∀ mergedObjects,
  foldl (merge_step serverObjects) mergedObjects localObjects =
    mergedObjects ++ local_only serverObjects localObjects.
Proof.
  induction localObjects as [|localObj rest IH]; intros mergedObjects; simpl.
  - unfold local_only. by rewrite filter_nil, app_nil_r.
  - rewrite IH, merge_step_spec. unfold local_only.
    rewrite <- app_assoc, <- filter_app. done.
Qed.

Lemma local_only_nil localObjects : local_only [] localObjects = localObjects.
Proof.
  unfold local_only. induction localObjects as [|o rest IH]; [done|].
  rewrite filter_cons_True; [by rewrite IH|]. simpl. apply not_elem_of_nil.
Qed.

Lemma load_fails_served r : load_fails r → served r = [].
Proof.
  destruct r as [|status [| |[rec|]]]; simpl; try done.
  intros [->|[]]. done.
Qed.

Lemma syncObjects_result r now localObjects s :
  fst (syncObjects r now localObjects s) = fst (loadObjects r now s) ∧
  snd (syncObjects r now localObjects s) =
    served r ++ local_only (served r) localObjects.
Proof.
  unfold syncObjects.
  rewrite <- loadObjects_returns_served with (now := now) (s := s).
  destruct (loadObjects r now s) as [s1 serverObjects]. simpl.
  by rewrite foldl_merge_step.
Qed.

(** C1.  [syncObjects] loads the remote document and returns the items the
    server sent, with the server's values, followed by the items of the
    local list whose id the server does not have, as they are and in their
    order; the state is the one [loadObjects] leaves.  When the load fails,
    the result is the local list itself. *)
Theorem syncObjects_server_wins (r : GetResponse) (now : string)
    (localObjects : list StoredObject) (s : State) :
  syncObjects r now localObjects s =
    (fst (loadObjects r now s),
     served r ++ local_only (served r) localObjects) ∧
  (load_fails r → snd (syncObjects r now localObjects s) = localObjects).
Proof.
  destruct (syncObjects_result r now localObjects s) as [Hs Hl].
  split.
  - rewrite <- Hs, <- Hl. by destruct (syncObjects r now localObjects s).
  - intros Hf. rewrite Hl.
    by rewrite (load_fails_served r Hf), local_only_nil.
Qed.

Lemma syncObjects_server_wins_witness :
  let localObjects :=
    [{| id := "1"; name := "cup"; x := 9; y := 0; type := "cup";
        emoji := "c"; color := "red"; isText := None |}] in
  syncObjects GetNetworkError "t1" localObjects initial =
    (fst (loadObjects GetNetworkError "t1" initial),
     served GetNetworkError ++ local_only (served GetNetworkError) localObjects) ∧
  snd (syncObjects GetNetworkError "t1" localObjects initial) = localObjects.
Proof.
  intros localObjects.
  destruct (syncObjects_server_wins GetNetworkError "t1" localObjects initial)
    as [H1 H2].
  split; [exact H1|]. apply H2. simpl. exact I.
Defined.

(** The example of the specification: the server has id 1, the local list has
    id 1 at another place and id 2. *)
Example syncObjects_keeps_local_only :
  let server1 := {| id := "1"; name := "cup"; x := 3; y := 4; type := "cup";
                    emoji := "c"; color := "red"; isText := None |} in
  let local1 := {| id := "1"; name := "cup"; x := 9; y := 4; type := "cup";
                   emoji := "c"; color := "red"; isText := None |} in
  let local2 := {| id := "2"; name := "book"; x := 1; y := 1; type := "book";
                   emoji := "b"; color := "blue"; isText := None |} in
  snd (syncObjects
         (GetHttp 200 (BodyJson (Some {| r_objects := Some [server1];
                                         r_lastUpdated := Some "t0";
                                         r_version := Some 1 |})))
         "t1" [local1; local2] initial)
  = [server1; local2].
Proof. vm_compute. reflexivity. Qed.

(** ** The queued mutations *)

Lemma filter_none {A} (P : A → Prop) `{∀ a, Decision (P a)} (l : list A) :
  (∀ a, a ∈ l → ¬ P a) → filter P l = [].
Proof.
  induction l as [|a l IH]; intros Hl; [done|].
  rewrite filter_cons_False by (apply Hl; left).
  apply IH. intros b Hb. apply Hl. by right.
Qed.

Lemma filter_same_id_after_add (object : StoredObject) (l : list StoredObject) :
  filter (λ obj, id obj = id object)
    (filter (λ obj, id obj ≠ id object) l ++ [object]) = [object].
Proof.
  rewrite filter_app, filter_cons_True, filter_nil by done.
  rewrite filter_none; [done|].
  intros obj [Hne _]%list_elem_of_filter. done.
Qed.

Lemma run_operation_present s c op :
  cache s = Some c → run_operation s op = set_cache (Some (apply_operation op c)) s.
Proof. intros H. unfold run_operation. by rewrite H. Qed.

Lemma foldl_run_operation ops : ∀ s c,
  cache s = Some c →
  foldl run_operation s ops = set_cache (Some (apply_all ops c)) s.
Proof.
  induction ops as [|op ops IH]; intros s c Hc; simpl.
  - destruct s; simpl in *; by subst.
  - rewrite (run_operation_present s c op Hc).
    rewrite (IH _ (apply_operation op c)) by done. done.
Qed.

(** ** processPendingOperations *)

Lemma skips_true s :
  skips s = true ↔
  isProcessing s = true ∨ pendingOperations s = [] ∨ cache s = None.
Proof.
  unfold skips. destruct (isProcessing s); simpl; [tauto|].
  destruct (pendingOperations s) as [|op q]; simpl; [tauto|].
  destruct (cache s); split; try tauto; intros [?|[?|?]]; done.
Qed.

Lemma skips_false s :
  skips s = false ↔
  isProcessing s = false ∧ pendingOperations s ≠ [] ∧ is_Some (cache s).
Proof.
  unfold skips. split.
  - destruct (isProcessing s); [done|].
    destruct (pendingOperations s) as [|op q]; [done|].
    destruct (cache s) as [c|]; [eauto|done].
  - intros (-> & Hq & [c ->]).
    destruct (pendingOperations s) as [|op q]; done.
Qed.

Lemma flush_begin_skipped now s :
  skips s = true → flush_begin now s = (s, Skipped).
Proof. intros H. unfold flush_begin. by rewrite H. Qed.

(** When the guard lets it through, the flush applies the whole queue to
    the cache, empties the queue, stamps the document and sends it. *)
Lemma flush_begin_runs now s c :
  cache s = Some c → isProcessing s = false → pendingOperations s ≠ [] →
  let body := {| objects := objects (apply_all (pendingOperations s) c);
                 lastUpdated := now; version := lastVersion s + 1 |} in
  flush_begin now s =
    ({| cache := Some body; pendingOperations := []; isProcessing := true;
        lastVersion := lastVersion s; timeout := timeout s |}, Issued body) ∧
  fst (flush_begin now s) =
    {| cache := Some body; pendingOperations := []; isProcessing := true;
       lastVersion := lastVersion s; timeout := timeout s |}.
Proof.
  intros Hc Hp Hq body.
  assert (skips s = false) as Hs by (apply skips_false; rewrite Hc; eauto).
  assert (flush_begin now s =
    ({| cache := Some body; pendingOperations := []; isProcessing := true;
        lastVersion := lastVersion s; timeout := timeout s |}, Issued body)) as H.
  { unfold flush_begin. rewrite Hs.
    rewrite (foldl_run_operation _ (set_isProcessing true s) c) by done.
    simpl. done. }
  split; [done|]. by rewrite H.
Qed.

Lemma flush_begin_never_throws now s : snd (flush_begin now s) ≠ Threw.
Proof.
  destruct (skips s) eqn:Hs.
  - by rewrite flush_begin_skipped.
  - apply skips_false in Hs as (Hp & Hq & [c Hc]).
    destruct (flush_begin_runs now s c Hc Hp Hq) as [-> _]. done.
Qed.

Lemma flush_end_failure r s :
  put_ok r = false → flush_end r s = (flush_failed s, false).
Proof.
  destruct r as [|status]; simpl; [done|]. intros ->. done.
Qed.

Lemma flush_end_success r s c :
  put_ok r = true → cache s = Some c →
  flush_end r s = (set_isProcessing false (set_lastVersion (version c) s), true).
Proof.
  destruct r as [|status]; simpl; [done|]. intros -> ->. done.
Qed.

Lemma ensure_loaded_present r now s :
  ∃ c, cache (ensure_loaded r now s) = Some c
       ∧ pendingOperations (ensure_loaded r now s) = pendingOperations s
       ∧ isProcessing (ensure_loaded r now s) = isProcessing s
       ∧ timeout (ensure_loaded r now s) = timeout s.
Proof.
  unfold ensure_loaded. destruct (cache s) as [c|] eqn:Hc; [eauto|].
  unfold loadObjects. destruct (loadObjects_try r now); simpl; eauto.
Qed.

(** C6.  The closure of [addObject] removes every item of the cache that has
    the id of the new item and appends the new item, so that afterwards the
    cache holds exactly one item with that id, the new one.  Through the
    service: two [addObject] calls with the same id followed by a flush
    leave exactly one item with that id in the cache, the second one (for
    an item with id a at (5,5): one item with id a, at (5,5)). *)
Theorem addObject_replaces_same_id :
  (∀ (c : StorageData) (object : StoredObject),
     objects (apply_operation (OpAdd object) c) =
       filter (λ obj, id obj ≠ id object) (objects c) ++ [object] ∧
     filter (λ obj, id obj = id object)
       (objects (apply_operation (OpAdd object) c)) = [object]) ∧
  (∀ (s : State) (r1 r2 : GetResponse) (now1 now2 now3 : string)
     (first second : StoredObject),
     isProcessing s = false →
     id first = id second →
     let s1 := fst (addObject r1 now1 first s) in
     let s2 := fst (addObject r2 now2 second s1) in
     let s3 := fst (flush_begin now3 s2) in
     filter (λ obj, id obj = id second) (getCurrentObjects s3) = [second]).
Proof.
  split.
  - intros c object. split; [done|]. simpl. apply filter_same_id_after_add.
  - intros s r1 r2 now1 now2 now3 first second Hp Hid s1 s2 s3.
    destruct (ensure_loaded_present r1 now1 s) as (c & Hc & Hq & Hip & _).
    assert (cache s1 = Some c) as Hc1 by (subst s1; simpl; exact Hc).
    assert (ensure_loaded r2 now2 s1 = s1) as He
      by (unfold ensure_loaded; by rewrite Hc1).
    pose proof (flush_begin_runs now3 s2 c) as Hrun.
    subst s3 s2. simpl in Hrun |- *. rewrite He in Hrun |- *.
    subst s1. simpl in Hrun |- *. rewrite Hip, Hp, Hc in Hrun.
    destruct Hrun as [Hrun _]; [done|done|by destruct (pendingOperations _)|].
    rewrite Hrun. unfold getCurrentObjects. simpl.
    unfold apply_all. rewrite foldl_app. simpl.
    apply filter_same_id_after_add.
Qed.

Lemma addObject_replaces_same_id_witness :
  let first := {| id := "a"; name := "cup"; x := 1; y := 2; type := "cup";
                  emoji := "c"; color := "red"; isText := None |} in
  let second := {| id := "a"; name := "cup"; x := 5; y := 5; type := "cup";
                   emoji := "c"; color := "red"; isText := None |} in
  let s1 := fst (addObject GetNetworkError "t1" first initial) in
  let s2 := fst (addObject GetNetworkError "t2" second s1) in
  let s3 := fst (flush_begin "t3" s2) in
  filter (λ obj, id obj = "a") (getCurrentObjects s3) = [second].
Proof.
  intros first second.
  apply (proj2 addObject_replaces_same_id initial GetNetworkError
           GetNetworkError "t1" "t2" "t3" first second); reflexivity.
Defined.

(** An update only changes the place of the items with its id ... *)
Lemma update_places objectId x' y' c obj :
  obj ∈ objects (apply_operation (OpUpdate objectId x' y') c) →
  id obj = objectId → x obj = x' ∧ y obj = y'.
Proof.
  simpl. intros (old & -> & Hin)%list_elem_of_fmap Hid.
  destruct (decide (id old = objectId)); simpl in *; done.
Qed.

(** ... and an operation on another id leaves the items with this id as
    they are: it adds none and moves none. *)
Lemma other_target_keeps op objectId c obj :
  target op ≠ objectId →
  obj ∈ objects (apply_operation op c) → id obj = objectId →
  obj ∈ objects c.
Proof.
  destruct op as [object|otherId x' y'|otherId]; simpl; intros Hne Hin Hid.
  - apply elem_of_app in Hin as [Hin|Hin].
    + by apply list_elem_of_filter in Hin as [_ Hin].
    + apply list_elem_of_singleton in Hin. congruence.
  - apply list_elem_of_fmap in Hin as (old & -> & Hin).
    destruct (decide (id old = otherId)); simpl in *; [congruence|done].
  - by apply list_elem_of_filter in Hin as [_ Hin].
Qed.

Lemma last_update_wins post : ∀ objectId x' y' c obj,
  Forall (λ op, target op ≠ objectId) post →
  obj ∈ objects (apply_all (OpUpdate objectId x' y' :: post) c) →
  id obj = objectId → x obj = x' ∧ y obj = y'.
Proof.
  induction post as [|op post IH] using rev_ind; intros objectId x' y' c obj Hpost Hin Hid.
  - by apply (update_places objectId x' y' c obj).
  - apply Forall_app in Hpost as [Hpost Hop]. rewrite Forall_singleton in Hop.
    unfold apply_all in Hin. rewrite app_comm_cons, foldl_app in Hin. simpl in Hin.
    apply (IH objectId x' y' c obj Hpost); [|done].
    by apply (other_target_keeps op objectId _ obj Hop).
Qed.

(** A flush request that the guard lets through, as one step of the
    world. *)
Lemma request_runs w now byForce c :
  cache (service w) = Some c →
  isProcessing (service w) = false →
  pendingOperations (service w) ≠ [] →
  (byForce = false → timeout (service w) = true) →
  let body := {| objects := objects (apply_all (pendingOperations (service w)) c);
                 lastUpdated := now; version := lastVersion (service w) + 1 |} in
  step w (flush_request now byForce) =
    {| service := {| cache := Some body; pendingOperations := [];
                     isProcessing := true;
                     lastVersion := lastVersion (service w);
                     timeout := if byForce then timeout (service w) else false |};
       in_flight := in_flight w ++ [body];
       sent := sent w ++ [body];
       stored := stored w |}.
Proof.
  intros Hc Hp Hq Ht body. destruct byForce; simpl.
  - unfold start_flush.
    by destruct (flush_begin_runs now (service w) c Hc Hp Hq) as [-> _].
  - rewrite (Ht eq_refl). unfold start_flush.
    destruct (flush_begin_runs now (set_timeout false (service w)) c Hc Hp Hq)
      as [Hrun _].
    cbn [service with_service] in *. rewrite Hrun. done.
Qed.

(** C5.  A flush that finds the cache present, no flush in flight and a
    queue of k >= 1 operations applies the k operations to the cache, the
    oldest first, empties the queue and sends exactly one PUT, whose body is
    the whole document so obtained (stamped with the time and the version
    [lastVersion + 1]).  In particular, when the last queued operation on
    an id is an update, every item with that id is at the place of that
    update. *)
Theorem flush_applies_queue_in_order (w : World) (now : string) (byForce : bool)
    (c : StorageData) :
  cache (service w) = Some c →
  isProcessing (service w) = false →
  pendingOperations (service w) ≠ [] →
  (byForce = false → timeout (service w) = true) →
  let ops := pendingOperations (service w) in
  let body := {| objects := objects (apply_all ops c); lastUpdated := now;
                 version := lastVersion (service w) + 1 |} in
  let w' := step w (flush_request now byForce) in
  cache (service w') = Some body ∧
  pendingOperations (service w') = [] ∧
  sent w' = sent w ++ [body] ∧
  in_flight w' = in_flight w ++ [body] ∧
  (∀ before objectId x' y' after obj,
     ops = before ++ OpUpdate objectId x' y' :: after →
     Forall (λ op, target op ≠ objectId) after →
     obj ∈ objects body → id obj = objectId → x obj = x' ∧ y obj = y').
Proof.
  intros Hc Hp Hq Ht ops body w'. subst w'.
  rewrite (request_runs w now byForce c Hc Hp Hq Ht). simpl.
  split_and!; try done.
  intros before objectId x' y' after obj Hops Hafter Hin Hid.
  subst body ops. simpl in Hin. rewrite Hops in Hin.
  unfold apply_all in Hin. rewrite foldl_app in Hin.
  by apply (last_update_wins after objectId x' y' _ obj Hafter Hin Hid).
Qed.

Lemma flush_applies_queue_in_order_witness :
  let w := world_of [cup "a" 0 0; cup "b" 2 2]
             [OpUpdate "a" 1 1; OpRemove "b"; OpUpdate "a" 5 5] in
  let body := {| objects := [cup "a" 5 5]; lastUpdated := "t1"; version := 2 |} in
  let w' := step w (flush_request "t1" true) in
  cache (service w') = Some body ∧ pendingOperations (service w') = [] ∧
  sent w' = [body] ∧ in_flight w' = [body].
Proof.
  intros w body w'.
  destruct (flush_applies_queue_in_order w "t1" true
              {| objects := [cup "a" 0 0; cup "b" 2 2]; lastUpdated := "t0";
                 version := 1 |})
    as (H1 & H2 & H3 & H4 & _); try done.
Defined.

(** C4.  When the PUT of a flush fails (the transport fails or the status
    is not a success), the flush returns [false], the queue is empty
    afterwards: nothing is queued again; and the cache keeps the document
    with the operations applied.  The first part holds in whatever state
    the answer finds the service, the second for a flush that no other task
    interrupts. *)
Theorem failed_flush_is_not_retried (r : PutResponse) (now : string)
    (s : State) (c : StorageData) :
  put_ok r = false →
  (∀ s', snd (flush_end r s') = false ∧
         pendingOperations (fst (flush_end r s')) = [] ∧
         isProcessing (fst (flush_end r s')) = false ∧
         cache (fst (flush_end r s')) = cache s') ∧
  (cache s = Some c → isProcessing s = false → pendingOperations s ≠ [] →
   ∃ s2 body,
     processPendingOperations r now s = (s2, false, Some body) ∧
     pendingOperations s2 = [] ∧
     cache s2 = Some body ∧
     objects body = objects (apply_all (pendingOperations s) c)).
Proof.
  intros Hr. split.
  - intros s'. by rewrite (flush_end_failure r s' Hr).
  - intros Hc Hp Hq.
    destruct (flush_begin_runs now s c Hc Hp Hq) as [Hrun _].
    unfold processPendingOperations. rewrite Hrun.
    rewrite flush_end_failure by done. simpl.
    eexists _, _. split_and!; reflexivity.
Qed.

Lemma failed_flush_is_not_retried_witness :
  let s := loaded [cup "a" 0 0] [OpUpdate "a" 5 5; OpAdd (cup "b" 1 1)] in
  ∃ s2 body,
    processPendingOperations (PutHttp 500) "t1" s = (s2, false, Some body) ∧
    pendingOperations s2 = [] ∧
    cache s2 = Some body ∧
    objects body = [cup "a" 5 5; cup "b" 1 1].
Proof.
  intros s.
  destruct (failed_flush_is_not_retried (PutHttp 500) "t1" s
              {| objects := [cup "a" 0 0]; lastUpdated := "t0"; version := 1 |})
    as [_ H]; [reflexivity|].
  apply H; done.
Defined.

(** ** forceSave *)

(** Against C3 as it is worded: on a service with an empty queue [forceSave]
    answers [true] although no PUT was sent. *)
Lemma forceSave_true_without_put :
  ¬ true_means_written (PutHttp 200) "t1" (loaded [cup "a" 0 0] []).
Proof.
  unfold true_means_written. vm_compute. intros [H _].
  destruct (H eq_refl) as [[body Hbody] _]. discriminate.
Qed.

(** C3, amended.  [forceSave] returns [false] exactly when it sent a PUT and
    the PUT failed.  It returns [true] when the PUT it sent succeeded, and
    also when the guard skipped the flush (a flush in flight, an empty
    queue or no cache), in which case no PUT is sent and the state is
    unchanged. *)
Theorem forceSave_false_iff_put_failed (r : PutResponse) (now : string)
    (s : State) :
  (skips s = true → forceSave r now s = (s, true, None)) ∧
  (skips s = false →
     ∃ s2 body, forceSave r now s = (s2, put_ok r, Some body)) ∧
  (snd (fst (forceSave r now s)) = false ↔
     is_Some (snd (forceSave r now s)) ∧ put_ok r = false).
Proof.
  assert (skips s = true → forceSave r now s = (s, true, None)) as Hskip.
  { intros Hs. unfold forceSave, processPendingOperations.
    by rewrite flush_begin_skipped. }
  assert (skips s = false →
          ∃ s2 body, forceSave r now s = (s2, put_ok r, Some body)) as Hrun.
  { intros (Hp & Hq & [c Hc])%skips_false.
    destruct (flush_begin_runs now s c Hc Hp Hq) as [Hb _].
    unfold forceSave, processPendingOperations. rewrite Hb.
    destruct (put_ok r) eqn:Hr.
    - erewrite flush_end_success by done. eauto.
    - rewrite flush_end_failure by done. eauto. }
  split_and!; try done.
  destruct (skips s) eqn:Hs.
  - rewrite Hskip by done. simpl. split; [done|]. by intros [[? ?] _].
  - destruct Hrun as (s2 & body & ->); [done|]. simpl. split; eauto.
    by intros [_ ?].
Qed.

Lemma forceSave_false_iff_put_failed_witness :
  forceSave PutNetworkError "t1" (loaded [cup "a" 0 0] [])
    = (loaded [cup "a" 0 0] [], true, None) ∧
  ∃ s2 body,
    forceSave PutNetworkError "t1" (loaded [cup "a" 0 0] [OpRemove "a"])
      = (s2, false, Some body).
Proof.
  split.
  - apply (forceSave_false_iff_put_failed PutNetworkError "t1"
             (loaded [cup "a" 0 0] [])). reflexivity.
  - apply (forceSave_false_iff_put_failed PutNetworkError "t1"
             (loaded [cup "a" 0 0] [OpRemove "a"])). reflexivity.
Defined.

(** ** One flush at a time *)

Lemma ensure_loaded_keeps r now s :
  isProcessing (ensure_loaded r now s) = isProcessing s.
Proof. by destruct (ensure_loaded_present r now s) as (c & _ & _ & -> & _). Qed.

Lemma loadObjects_isProcessing r now s :
  isProcessing (fst (loadObjects r now s)) = isProcessing s.
Proof. unfold loadObjects. by destruct (loadObjects_try r now). Qed.

Lemma syncObjects_state r now localObjects s :
  fst (syncObjects r now localObjects s) = fst (loadObjects r now s).
Proof. unfold syncObjects. by destruct (loadObjects r now s). Qed.

Lemma flush_end_isProcessing r s : isProcessing (fst (flush_end r s)) = false.
Proof.
  unfold flush_end. destruct r as [|status]; [done|].
  destruct (ok status); [|done]. by destruct (cache s).
Qed.

(** While a flush is in flight, a request for another one changes nothing
    but the timer. *)
Lemma start_flush_busy now w :
  skips (service w) = true → start_flush now w = w.
Proof.
  intros Hs. unfold start_flush. rewrite flush_begin_skipped by done.
  by destruct w.
Qed.

Lemma start_flush_coherent now w : coherent w → coherent (start_flush now w).
Proof.
  intros Hw. destruct (skips (service w)) eqn:Hs.
  - by rewrite start_flush_busy.
  - apply skips_false in Hs as (Hp & Hq & [c Hc]).
    unfold start_flush.
    destruct (flush_begin_runs now (service w) c Hc Hp Hq) as [-> _].
    unfold coherent in *. simpl. rewrite Hp in Hw. by rewrite Hw.
Qed.

Lemma step_coherent w e : coherent w → coherent (step w e).
Proof.
  intros Hw. destruct e as [r now|r now object|r now objectId x' y'|r now objectId
                           |r now localObjects|now|now|r]; simpl.
  - unfold coherent in *. simpl. by rewrite loadObjects_isProcessing.
  - unfold coherent in *. simpl. by rewrite ensure_loaded_keeps.
  - unfold coherent in *. simpl. by rewrite ensure_loaded_keeps.
  - unfold coherent in *. simpl. by rewrite ensure_loaded_keeps.
  - unfold coherent in *. simpl.
    by rewrite syncObjects_state, loadObjects_isProcessing.
  - by apply start_flush_coherent.
  - destruct (timeout (service w)); [|done]. by apply start_flush_coherent.
  - unfold coherent in *.
    destruct (in_flight w) as [|body others] eqn:Hf; [by rewrite Hf|].
    simpl. rewrite flush_end_isProcessing.
    destruct (isProcessing (service w)); [|done].
    by destruct others.
Qed.

Lemma run_coherent events : ∀ w, coherent w → coherent (run w events).
Proof.
  induction events as [|e events IH]; intros w Hw; [done|].
  simpl. apply IH. by apply step_coherent.
Qed.

Lemma coherent_at_most_one w : coherent w → (length (in_flight w) ≤ 1)%nat.
Proof.
  unfold coherent. destruct (isProcessing (service w)).
  - intros ->. done.
  - intros ->. simpl. lia.
Qed.

(** Until its PUT settles, a flush in flight keeps every other event from
    sending a PUT. *)
Lemma step_busy w e :
  isProcessing (service w) = true → ¬ is_settle e →
  isProcessing (service (step w e)) = true ∧ sent (step w e) = sent w.
Proof.
  intros Hp He.
  assert (∀ w0 now, isProcessing (service w0) = true → start_flush now w0 = w0)
    as Hbusy.
  { intros w0 now H0. apply start_flush_busy, skips_true. by left. }
  destruct e as [r now|r now object|r now objectId x' y'|r now objectId
                |r now localObjects|now|now|r]; simpl.
  - by rewrite loadObjects_isProcessing.
  - by rewrite ensure_loaded_keeps.
  - by rewrite ensure_loaded_keeps.
  - by rewrite ensure_loaded_keeps.
  - by rewrite syncObjects_state, loadObjects_isProcessing.
  - by rewrite Hbusy.
  - destruct (timeout (service w)); [|done]. by rewrite Hbusy.
  - by destruct He.
Qed.

Lemma run_busy events : ∀ w,
  isProcessing (service w) = true → Forall (λ e, ¬ is_settle e) events →
  sent (run w events) = sent w.
Proof.
  induction events as [|e events IH]; intros w Hp Hev; [done|].
  apply Forall_cons in Hev as [He Hev].
  destruct (step_busy w e Hp He) as [Hp' Hs'].
  simpl. rewrite IH by done. done.
Qed.

(** C9.  A flush that is requested, by the timer or by [forceSave], while
    another one is in flight, or while the queue is empty, or while there is
    no cache, changes neither the cache nor the queue and sends no PUT.  On
    every run of the service at most one PUT is in flight.  And once a flush
    has sent its PUT, whatever is requested before that PUT settles, a second
    flush included, sends no other one: exactly one PUT goes out. *)
Theorem at_most_one_flush_in_flight :
  (∀ (w : World) (now : string) (byForce : bool),
     isProcessing (service w) = true ∨ pendingOperations (service w) = []
       ∨ cache (service w) = None →
     let w' := step w (flush_request now byForce) in
     cache (service w') = cache (service w) ∧
     pendingOperations (service w') = pendingOperations (service w) ∧
     sent w' = sent w ∧ in_flight w' = in_flight w) ∧
  (∀ (w : World) (events : list Event),
     coherent w → (length (in_flight (run w events)) ≤ 1)%nat) ∧
  (∀ (w : World) (c : StorageData) (now : string) (byForce : bool)
     (events : list Event),
     cache (service w) = Some c → isProcessing (service w) = false →
     pendingOperations (service w) ≠ [] →
     (byForce = false → timeout (service w) = true) →
     Forall (λ e, ¬ is_settle e) events →
     ∃ body,
       sent (run w (flush_request now byForce :: events)) = sent w ++ [body]).
Proof.
  split_and!.
  - intros w now byForce Hskip%skips_true w'. subst w'.
    destruct byForce; simpl.
    + by rewrite start_flush_busy.
    + destruct (timeout (service w)); [|done].
      rewrite start_flush_busy; done.
  - intros w events Hw. by apply coherent_at_most_one, run_coherent.
  - intros w c now byForce events Hc Hp Hq Ht Hev.
    eexists. change (run w (flush_request now byForce :: events))
      with (run (step w (flush_request now byForce)) events).
    rewrite run_busy; [|by rewrite (request_runs w now byForce c)|done].
    by rewrite (request_runs w now byForce c).
Qed.

Lemma at_most_one_flush_in_flight_witness :
  let w := world_of [cup "a" 0 0] [OpUpdate "a" 5 5] in
  (length (in_flight (run w [CallForceSave "t1"; CallForceSave "t2"])) ≤ 1)%nat ∧
  ∃ body,
    sent (run w (flush_request "t1" true :: [CallForceSave "t2"; TimerFires "t3"]))
    = sent w ++ [body].
Proof.
  intros w. destruct at_most_one_flush_in_flight as (_ & Hone & Hsent). split.
  - apply Hone. reflexivity.
  - apply (Hsent w {| objects := [cup "a" 0 0]; lastUpdated := "t0"; version := 1 |});
      try done.
    repeat constructor; simpl; tauto.
Defined.

(** Two forced flushes in a row on a non-empty queue: one PUT, and the
    second call finds the service busy. *)
Example two_flushes_one_put :
  let w := run (world_of [cup "a" 0 0] [OpUpdate "a" 5 5])
             [CallForceSave "t1"; CallForceSave "t2"] in
  sent w = [{| objects := [cup "a" 5 5]; lastUpdated := "t1"; version := 2 |}]
  ∧ in_flight w = sent w.
Proof. vm_compute. split; reflexivity. Qed.

(** ** The version counter *)

Lemma run_app w events1 events2 :
  run w (events1 ++ events2) = run (run w events1) events2.
Proof. unfold run. apply foldl_app. Qed.

(** A mutating call on a service that has a cache only queues its
    operation and arms the timer. *)
Lemma step_mutation w e c :
  is_mutation e → cache (service w) = Some c →
  ∃ op, step w e =
    with_service (queueOperation op (service w)) w.
Proof.
  intros He Hc.
  assert (∀ r now, ensure_loaded r now (service w) = service w) as Hl
    by (intros; unfold ensure_loaded; by rewrite Hc).
  destruct e; simpl in He; try done; simpl; rewrite Hl; eauto.
Qed.

Lemma run_mutations events : ∀ w c,
  Forall is_mutation events → cache (service w) = Some c →
  let w' := run w events in
  cache (service w') = Some c ∧
  isProcessing (service w') = isProcessing (service w) ∧
  lastVersion (service w') = lastVersion (service w) ∧
  in_flight w' = in_flight w ∧ stored w' = stored w ∧
  (events ≠ [] ∨ (pendingOperations (service w) ≠ [] ∧ timeout (service w) = true) →
   pendingOperations (service w') ≠ [] ∧ timeout (service w') = true).
Proof.
  induction events as [|e events IH]; intros w c Hev Hc.
  - simpl. split_and!; try done. by intros [?|?].
  - apply Forall_cons in Hev as [He Hev]. cbv zeta.
    destruct (step_mutation w e c He Hc) as [op Hstep].
    destruct (IH (step w e) c Hev) as (H1 & H2 & H3 & H4 & H5 & H6).
    { by rewrite Hstep. }
    change (run w (e :: events)) with (run (step w e) events).
    rewrite Hstep in *. simpl in H2, H3, H4, H5, H6.
    repeat (split; [done|]).
    intros _. apply H6. right. split; [|done].
    by destruct (pendingOperations (service w)).
Qed.

(** One successful round moves the last-known version and the stored version
    to the old last-known version plus one. *)
Lemma round_bumps_version rd w c :
  successful rd →
  cache (service w) = Some c → isProcessing (service w) = false →
  in_flight w = [] →
  let w' := run w (round_events rd) in
  is_Some (cache (service w')) ∧ isProcessing (service w') = false ∧
  in_flight w' = [] ∧
  lastVersion (service w') = lastVersion (service w) + 1 ∧
  version <$> stored w' = Some (lastVersion (service w) + 1).
Proof.
  intros (Hne & Hmut & Hok) Hc Hp Hf w'. subst w'.
  unfold round_events. rewrite run_app.
  destruct (run_mutations (mutations rd) w c Hmut Hc)
    as (Hc1 & Hp1 & Hv1 & Hf1 & _ & Hq1).
  destruct Hq1 as [Hq1 Ht1]; [by left|].
  set (w1 := run w (mutations rd)) in *.
  change (run w1 [flush_request (flushed_at rd) (forced rd); PutSettles (answer rd)])
    with (step (step w1 (flush_request (flushed_at rd) (forced rd)))
            (PutSettles (answer rd))).
  rewrite (request_runs w1 _ (forced rd) c) by (done || congruence).
  rewrite Hf1, Hf. simpl.
  erewrite flush_end_success by done. simpl. rewrite Hok, Hv1.
  split_and!; done.
Qed.

Lemma rounds_bump_version rounds : ∀ w c,
  Forall successful rounds →
  cache (service w) = Some c → isProcessing (service w) = false →
  in_flight w = [] →
  let w' := run w (concat (map round_events rounds)) in
  lastVersion (service w') = lastVersion (service w) + Z.of_nat (length rounds) ∧
  (rounds ≠ [] →
   version <$> stored w' = Some (lastVersion (service w) + Z.of_nat (length rounds))).
Proof.
  induction rounds as [|rd rounds IH]; intros w c Hall Hc Hp Hf; simpl.
  - split; [lia|done].
  - apply Forall_cons in Hall as [Hrd Hall].
    rewrite run_app.
    destruct (round_bumps_version rd w c Hrd Hc Hp Hf)
      as ([c1 Hc1] & Hp1 & Hf1 & Hv1 & Hs1).
    destruct (IH _ c1 Hall Hc1 Hp1 Hf1) as [Hv Hs]. simpl in Hv, Hs.
    rewrite Hv1 in Hv, Hs. split; [lia|]. intros _.
    destruct rounds as [|rd' rounds'].
    + simpl. rewrite Hs1. done.
    + rewrite Hs by done. f_equal. lia.
Qed.






(** The plain schedule: N rounds of mutating calls, a flush and a PUT that
    succeeds, one after the other. *)
Corollary version_after_rounds (rounds : list Round) (w : World)
    (c d : StorageData) :
  cache (service w) = Some c → lastVersion (service w) = 1 →
  isProcessing (service w) = false → in_flight w = [] →
  stored w = Some d → version d = 1 →
  Forall successful rounds →
  let w' := run w (concat (map round_events rounds)) in
  version <$> stored w' = Some (Z.of_nat (length rounds) + 1) ∧
  lastVersion (service w') = Z.of_nat (length rounds) + 1.
Proof.
  intros Hc Hv Hp Hf Hd Hvd Hall.
  destruct (rounds_bump_version rounds w c Hall Hc Hp Hf) as [H1 H2].
  simpl in *. rewrite Hv in H1, H2. split; [|lia].
  destruct rounds as [|rd rounds'].
  - simpl. rewrite Hd. simpl. by rewrite Hvd.
  - rewrite H2 by done. f_equal; lia.
Qed.

(** A reload is another matter: [loadObjects] overwrites [lastVersion], and
    a reload that comes while a PUT is in flight makes [flush_end] record
    the version of the reloaded cache.  Here the server still answers with
    version 1 while version 2 is being written, and the next flush writes
    version 2 again. *)
Example reload_during_flush_repeats_version :
  let server1 := GetHttp 200 (BodyJson (Some {| r_objects := Some [cup "a" 0 0];
                                                r_lastUpdated := Some "t0";
                                                r_version := Some 1 |})) in
  let w' := run (world_of [cup "a" 0 0] [OpUpdate "a" 5 5])
              [CallForceSave "t1"; CallSync server1 "t2" [cup "a" 5 5];
               PutSettles (PutHttp 200);
               CallUpdate GetNetworkError "t3" "a" 7 7; CallForceSave "t4";
               PutSettles (PutHttp 200)] in
  map version (sent w') = [2; 2] ∧ lastVersion (service w') = 2.
Proof. vm_compute. split; reflexivity. Qed.

(** ** The arrays behind the lists *)

Lemma read_alloc_old a (h : Heap) l :
  (l < length h)%nat → read (h ++ [a]) l = read h l.
Proof. intros Hl. unfold read. by rewrite lookup_app_l. Qed.

Lemma read_alloc_new a (h : Heap) : read (h ++ [a]) (length h) = a.
Proof.
  unfold read. by rewrite (list_lookup_middle h [] a (length h) eq_refl).
Qed.

Lemma read_push_same l o h :
  (l < length h)%nat → read (push l o h) l = read h l ++ [o].
Proof.
  intros Hl. unfold read, push. rewrite list_lookup_alter_eq.
  destruct (lookup_lt_is_Some_2 h l Hl) as [a ->]. done.
Qed.

Lemma read_push_other l l' o h : l ≠ l' → read (push l o h) l' = read h l'.
Proof. intros Hne. unfold read, push. by rewrite list_lookup_alter_ne. Qed.

Lemma length_push l o h : length (push l o h) = length h.
Proof. apply length_alter. Qed.

(** The loop of [syncObjects] only changes the array of the merged list:
    it computes there what the loop on lists computes, and every other
    array, the one of the cache among them, keeps its elements. *)
Lemma foldl_merge_step_heap serverObjects mergedObjects localObjects : ∀ h,
  serverObjects ≠ mergedObjects → (mergedObjects < length h)%nat →
  let h' := foldl (merge_step_heap serverObjects mergedObjects) h localObjects in
  length h' = length h ∧
  (∀ l, l ≠ mergedObjects → read h' l = read h l) ∧
  read h' mergedObjects =
    foldl (merge_step (read h serverObjects)) (read h mergedObjects) localObjects.
Proof.
  induction localObjects as [|localObj rest IH]; intros h Hne Hlt; [done|].
  cbv zeta. simpl.
  assert (length (merge_step_heap serverObjects mergedObjects h localObj) = length h
          ∧ (∀ l, l ≠ mergedObjects →
               read (merge_step_heap serverObjects mergedObjects h localObj) l = read h l)
          ∧ read (merge_step_heap serverObjects mergedObjects h localObj) mergedObjects
            = merge_step (read h serverObjects) (read h mergedObjects) localObj)
    as (Hlen & Hother & Hmerged).
  { unfold merge_step_heap, merge_step.
    destruct (list_find _ (read h serverObjects)); [done|].
    split_and!.
    - apply length_push.
    - intros l Hl. by apply read_push_other.
    - by apply read_push_same. }
  destruct (IH (merge_step_heap serverObjects mergedObjects h localObj) Hne)
    as (Hlen' & Hother' & Hmerged'); [by rewrite Hlen|].
  split_and!.
  - by rewrite Hlen'.
  - intros l Hl. by rewrite Hother', Hother.
  - by rewrite Hmerged', Hmerged, (Hother serverObjects Hne).
Qed.

(** [loadObjects] on arrays: the arrays that exist keep their elements, the
    cache points to a new array with the items of the response, and the
    machine reads back as the state that [loadObjects] on lists gives. *)
Lemma loadObjects_heap_spec r now m :
  let m' := fst (loadObjects_heap r now m) in
  let serverObjects := snd (loadObjects_heap r now m) in
  (length (heap m) < length (heap m'))%nat ∧
  (∀ l, (l < length (heap m))%nat → read (heap m') l = read (heap m) l) ∧
  (serverObjects < length (heap m'))%nat ∧
  (length (heap m) ≤ serverObjects)%nat ∧
  read (heap m') serverObjects = snd (loadObjects r now (contents m)) ∧
  contents m' = fst (loadObjects r now (contents m)) ∧
  (∃ c, m_cache m' = Some c ∧ (objects_at c < length (heap m'))%nat).
Proof.
  unfold loadObjects_heap, loadObjects.
  destruct (loadObjects_try r now) as [c|]; simpl.
  - rewrite length_app. simpl. split_and!; try lia.
    + intros l Hl. by apply read_alloc_old.
    + apply read_alloc_new.
    + unfold contents, document. simpl. rewrite read_alloc_new. by destruct c.
    + eexists. split; [done|]. simpl. lia.
  - rewrite !length_app. simpl.
    assert (length (heap m) < length (heap m ++ [[]]))%nat as Hlt
      by (rewrite length_app; simpl; lia).
    split_and!; try lia.
    + intros l Hl. rewrite read_alloc_old by (rewrite length_app; simpl; lia).
      by apply read_alloc_old.
    + replace (length (heap m) + 1)%nat with (length (heap m ++ [[]]))
        by (by rewrite length_app).
      apply read_alloc_new.
    + unfold contents, document. simpl.
      rewrite read_alloc_old by done. by rewrite read_alloc_new.
    + eexists. split; [done|]. simpl. lia.
Qed.

Lemma contents_set_heap h m :
  (∀ c, m_cache m = Some c → read h (objects_at c) = read (heap m) (objects_at c)) →
  contents (set_heap h m) = contents m.
Proof.
  intros Hread. unfold contents, document. simpl.
  destruct (m_cache m) as [c|]; simpl; [|done].
  by rewrite (Hread c eq_refl).
Qed.

(** [syncObjects] on arrays: the merged list is a new array, no array that
    existed or that the cache points to is changed, and the machine reads
    back as the state and the result of [syncObjects] on lists. *)
Lemma syncObjects_heap_spec r now localObjects m :
  (localObjects < length (heap m))%nat →
  let m' := fst (syncObjects_heap r now localObjects m) in
  let mergedObjects := snd (syncObjects_heap r now localObjects m) in
  (∀ l, (l < length (heap m))%nat → read (heap m') l = read (heap m) l) ∧
  (∃ c, m_cache m' = Some c ∧ (objects_at c < mergedObjects)%nat) ∧
  read (heap m') mergedObjects =
    snd (syncObjects r now (read (heap m) localObjects) (contents m)) ∧
  contents m' = fst (syncObjects r now (read (heap m) localObjects) (contents m)).
Proof.
  intros Hlocal. unfold syncObjects_heap, syncObjects.
  destruct (loadObjects_heap_spec r now m)
    as (Hgrow & Hold & Hserver & _ & Hread & Hcontents & c & Hc & Hat).
  destruct (loadObjects_heap r now m) as [m1 serverObjects].
  destruct (loadObjects r now (contents m)) as [s1 serverList].
  simpl in *. subst s1 serverList.
  set (h2 := heap m1 ++ [read (heap m1) serverObjects]).
  assert (read h2 localObjects = read (heap m) localObjects) as Hlocals.
  { unfold h2. rewrite read_alloc_old by lia. apply Hold, Hlocal. }
  rewrite Hlocals.
  destruct (foldl_merge_step_heap serverObjects (length (heap m1))
              (read (heap m) localObjects) h2)
    as (Hlen & Hother & Hmerged).
  { lia. }
  { unfold h2. rewrite length_app. simpl. lia. }
  cbv zeta in Hlen, Hother, Hmerged.
  assert (∀ l, (l < length (heap m1))%nat →
            read (foldl (merge_step_heap serverObjects (length (heap m1))) h2
                    (read (heap m) localObjects)) l = read (heap m1) l) as Hkeep.
  { intros l Hl. rewrite Hother by lia. unfold h2. by apply read_alloc_old. }
  split_and!.
  - intros l Hl. rewrite Hkeep by lia. by apply Hold.
  - exists c. split_and!; done.
  - rewrite Hmerged. unfold h2.
    rewrite read_alloc_old by done. by rewrite read_alloc_new.
  - rewrite contents_set_heap; [done|].
    intros c' Hc'. simpl. rewrite Hc in Hc'. injection Hc' as <-.
    by apply Hkeep.
Qed.

Lemma getCurrentObjects_after_load r now s :
  getCurrentObjects (fst (loadObjects r now s)) = served r.
Proof.
  rewrite <- (loadObjects_returns_served r now s).
  destruct (loadObjects_cache_present r now s) as (c & Hc & ->).
  unfold getCurrentObjects. by rewrite Hc.
Qed.

(** C10.  After [syncObjects] the cache is the document that was just
    loaded and nothing else: the local-only items go into the new array
    that is returned, not into the array of the cache.  So
    [getCurrentObjects], which returns the array of the cache, gives the
    items of the server, while the returned list has these followed by the
    local-only items: as many more as there are local-only items. *)
Theorem syncObjects_does_not_cache_local_items (r : GetResponse) (now : string)
    (localObjects : ref) (m : Machine) :
  (localObjects < length (heap m))%nat →
  let m' := fst (syncObjects_heap r now localObjects m) in
  let mergedObjects := snd (syncObjects_heap r now localObjects m) in
  let current := snd (getCurrentObjects_heap m') in
  let localOnly := local_only (served r) (read (heap m) localObjects) in
  fst (getCurrentObjects_heap m') = m' ∧
  current ≠ mergedObjects ∧
  read (heap m') current = served r ∧
  read (heap m') mergedObjects = served r ++ localOnly ∧
  contents m' = fst (loadObjects r now (contents m)) ∧
  getCurrentObjects (contents m') = served r ∧
  (∀ d, load_succeeds_with r d →
     cache (contents m') = Some d ∧ served r = objects d) ∧
  length (read (heap m') mergedObjects)
    = (length (read (heap m') current) + length localOnly)%nat.
Proof.
  intros Hlocal m' mergedObjects current localOnly.
  destruct (syncObjects_heap_spec r now localObjects m Hlocal)
    as (_ & (c & Hc & Hat) & Hmerged & Hcontents).
  fold m' mergedObjects in Hc, Hat, Hmerged, Hcontents.
  destruct (syncObjects_result r now (read (heap m) localObjects) (contents m))
    as [Hstate Hresult].
  rewrite Hstate in Hcontents. rewrite Hresult in Hmerged.
  assert (getCurrentObjects (contents m') = served r) as Hcurrent
    by (rewrite Hcontents; apply getCurrentObjects_after_load).
  assert (read (heap m') current = served r) as Hread.
  { rewrite <- Hcurrent. subst current. unfold getCurrentObjects_heap.
    rewrite Hc. unfold getCurrentObjects, contents. simpl. by rewrite Hc. }
  split_and!.
  - unfold getCurrentObjects_heap. by rewrite Hc.
  - subst current. unfold getCurrentObjects_heap. rewrite Hc. simpl. lia.
  - done.
  - done.
  - done.
  - done.
  - intros d Hd. rewrite Hcontents.
    destruct (loadObjects_success r now (contents m) d Hd) as (H1 & _ & H3).
    split; [done|]. rewrite <- H3. symmetry. apply loadObjects_returns_served.
  - rewrite Hmerged, Hread, length_app. done.
Qed.

Lemma syncObjects_does_not_cache_local_items_witness :
  let m := {| heap := [[cup "1" 9 4; cup "2" 1 1]]; m_cache := None;
              m_pendingOperations := []; m_isProcessing := false;
              m_lastVersion := 0; m_timeout := false |} in
  let r := GetHttp 200 (BodyJson (Some {| r_objects := Some [cup "1" 3 4];
                                          r_lastUpdated := Some "t0";
                                          r_version := Some 1 |})) in
  let m' := fst (syncObjects_heap r "t1" 0%nat m) in
  read (heap m') (snd (getCurrentObjects_heap m')) = [cup "1" 3 4] ∧
  read (heap m') (snd (syncObjects_heap r "t1" 0%nat m))
    = [cup "1" 3 4; cup "2" 1 1].
Proof.
  intros m r m'.
  destruct (syncObjects_does_not_cache_local_items r "t1" 0%nat m)
    as (_ & _ & H1 & H2 & _).
  - simpl. lia.
  - split; [exact H1 | exact H2].
Defined.

(** The closures on arrays: a closure never changes an array that exists,
    and the machine reads back as the state that the closure on lists
    gives.  With [loadObjects_heap_spec] and [syncObjects_heap_spec]: a list
    that a caller got from the service is not changed behind its back. *)
Lemma run_operation_heap_spec m op :
  let m' := run_operation_heap m op in
  (∀ l, (l < length (heap m))%nat → read (heap m') l = read (heap m) l) ∧
  contents m' = run_operation (contents m) op.
Proof.
  unfold run_operation_heap, run_operation, contents. cbv zeta.
  destruct (m_cache m) as [c|] eqn:Hc; simpl; rewrite ?Hc; simpl; [|by split].
  destruct op as [object|objectId x' y'|objectId]; simpl.
  - split.
    + intros l Hl. rewrite read_push_other by lia. by apply read_alloc_old.
    + unfold set_cache, document. simpl.
      rewrite read_push_same by (rewrite length_app; simpl; lia).
      by rewrite read_alloc_new.
  - split.
    + intros l Hl. by apply read_alloc_old.
    + unfold set_cache, document. simpl. by rewrite read_alloc_new.
  - split.
    + intros l Hl. by apply read_alloc_old.
    + unfold set_cache, document. simpl. by rewrite read_alloc_new.
Qed.

(** ** The reset request *)

(** C8, on the code.  The class has no method [resetObjects]: for the input
    [__reset] the handler is rejected with a TypeError before it calls any
    method of the service and before it clears the objects of the table. *)
Theorem reset_is_not_provided (trim : string → string) (isEmoji : string → bool)
    (input : string) (objects : list TableObject) :
  trim input = "__reset" →
  ("resetObjects" ∉ StorageService_functions) ∧
  (handleCustomObject trim isEmoji input objects =
     (Rejected "TypeError: storageService.resetObjects is not a function",
      objects, [])).
Proof.
  intros Htrim. split.
  - unfold StorageService_functions.
    rewrite !elem_of_cons, elem_of_nil. intros H.
    repeat (destruct H as [H|H]; [discriminate|]). done.
  - unfold handleCustomObject. rewrite Htrim.
    destruct (decide ("__reset" = "__reset")); [|done].
    destruct (decide ("resetObjects" ∈ StorageService_functions)) as [Hin|]; [|done].
    exfalso. revert Hin. unfold StorageService_functions.
    rewrite !elem_of_cons, elem_of_nil. intros H.
    repeat (destruct H as [H|H]; [discriminate|]). done.
Qed.

Lemma reset_is_not_provided_witness :
  handleCustomObject (λ t, t) (λ _, false) "__reset"
    [{| t_id := "cup-1"; t_type := "cup"; t_emoji := "c";
        t_color := "bg-amber-600"; t_x := 1; t_y := 2; t_isText := None |}]
  = (Rejected "TypeError: storageService.resetObjects is not a function",
     [{| t_id := "cup-1"; t_type := "cup"; t_emoji := "c";
         t_color := "bg-amber-600"; t_x := 1; t_y := 2; t_isText := None |}],
     []).
Proof.
  apply (reset_is_not_provided (λ t, t) (λ _, false) "__reset"). reflexivity.
Defined.

(** ** Calls, timer and flushes together *)

Lemma apply_all_app ops1 ops2 c :
  apply_all (ops1 ++ ops2) c = apply_all ops2 (apply_all ops1 c).
Proof. unfold apply_all. apply foldl_app. Qed.

(** Mutating calls on a service that has a cache: the queue grows by their
    operations, the timer is armed, and nothing else changes. *)
Lemma run_calls events : ∀ w c,
  Forall is_mutation events → cache (service w) = Some c →
  run w events =
    {| service :=
         {| cache := Some c;
            pendingOperations := pendingOperations (service w) ++ operations_of events;
            isProcessing := isProcessing (service w);
            lastVersion := lastVersion (service w);
            timeout := match events with [] => timeout (service w) | _ => true end |};
       in_flight := in_flight w; sent := sent w; stored := stored w |}.
Proof.
  induction events as [|e events IH]; intros w c Hev Hc.
  - simpl. rewrite app_nil_r. destruct w as [[] ? ? ?]. simpl in *. by subst.
  - apply Forall_cons in Hev as [He Hev].
    change (run w (e :: events)) with (run (step w e) events).
    assert (∀ r now, ensure_loaded r now (service w) = service w) as Hl
      by (intros; unfold ensure_loaded; by rewrite Hc).
    assert (∃ op, operation_of e = Some op ∧
              step w e = with_service (queueOperation op (service w)) w)
      as (op & Hop & Hstep).
    { destruct e; simpl in He; try done; simpl; rewrite Hl; eauto. }
    rewrite (IH (step w e) c Hev) by (by rewrite Hstep).
    rewrite Hstep. unfold operations_of. simpl. rewrite Hop. simpl.
    rewrite <- app_assoc. simpl. by destruct events.
Qed.

Lemma operations_of_nil events :
  Forall is_mutation events → operations_of events = [] → events = [].
Proof.
  destruct events as [|e events]; [done|].
  intros [He _]%Forall_cons. unfold operations_of. simpl.
  destruct e; simpl in He; try done.
Qed.

Lemma call_is_mutation r now op :
  is_mutation (call r now op) ∧ operation_of (call r now op) = Some op.
Proof. by destruct op. Qed.

Lemma operations_of_length events :
  Forall is_mutation events → length (operations_of events) = length events.
Proof.
  induction events as [|e events IH]; [done|].
  intros [He Hev]%Forall_cons. specialize (IH Hev).
  destruct e; simpl in He; try done;
    change (S (length (operations_of events)) = S (length events));
    by rewrite IH.
Qed.

(** X1.  On a service that has a cache, the mutating calls only queue: after
    any number of them [getCurrentObjects] still gives the items it gave
    before, no PUT was sent, the Remote Store is as it was, the queue has
    grown by their operations in the order of the calls, and the timer is
    armed. *)
Theorem calls_are_deferred (w : World) (c : StorageData) (events : list Event) :
  cache (service w) = Some c → Forall is_mutation events →
  let w' := run w events in
  getCurrentObjects (service w') = getCurrentObjects (service w) ∧
  sent w' = sent w ∧ in_flight w' = in_flight w ∧ stored w' = stored w ∧
  pendingOperations (service w')
    = pendingOperations (service w) ++ operations_of events ∧
  length (operations_of events) = length events ∧
  (events ≠ [] → timeout (service w') = true).
Proof.
  intros Hc Hev w'. subst w'. rewrite (run_calls events w c Hev Hc).
  unfold getCurrentObjects. simpl. rewrite Hc. split_and!; try done.
  - by apply operations_of_length.
  - by destruct events.
Qed.

Lemma calls_are_deferred_witness :
  let w := world_of [cup "a" 0 0] [] in
  let w' := run w [CallAdd GetNetworkError "t1" (cup "b" 1 1);
                   CallRemove GetNetworkError "t2" "a"] in
  getCurrentObjects (service w') = [cup "a" 0 0] ∧ sent w' = [] ∧
  pendingOperations (service w') = [OpAdd (cup "b" 1 1); OpRemove "a"].
Proof.
  intros w.
  destruct (calls_are_deferred w
              {| objects := [cup "a" 0 0]; lastUpdated := "t0"; version := 1 |}
              [CallAdd GetNetworkError "t1" (cup "b" 1 1);
               CallRemove GetNetworkError "t2" "a"])
    as (H1 & H2 & _ & _ & H5 & _); [reflexivity|repeat constructor|].
  split_and!; [exact H1|exact H2|exact H5].
Defined.

(** X2.  On a service without a cache, a mutating call loads first; when
    that load fails the cache is the empty document, and the next flush puts
    a document that holds nothing but the effect of the call on the empty
    list, with the version [lastVersion + 1] (1 for a new service): the
    items of the Remote Store are not in it. *)
Theorem flush_after_failed_load (w : World) (r : GetResponse) (now now' : string)
    (op : Operation) (byForce : bool) :
  cache (service w) = None → isProcessing (service w) = false →
  pendingOperations (service w) = [] →
  loadObjects_try r now = None →
  sent (run w [call r now op; flush_request now' byForce]) =
    sent w ++ [{| objects := objects (apply_operation op (empty_document now));
                  lastUpdated := now';
                  version := lastVersion (service w) + 1 |}].
Proof.
  intros Hc Hp Hq Hr.
  assert (step w (call r now op) =
            with_service
              (queueOperation op (set_cache (Some (empty_document now)) (service w))) w)
    as Hstep.
  { assert (ensure_loaded r now (service w)
            = set_cache (Some (empty_document now)) (service w)) as Hl.
    { unfold ensure_loaded. rewrite Hc. by rewrite loadObjects_catch. }
    destruct op; simpl; by rewrite Hl. }
  change (run w [call r now op; flush_request now' byForce])
    with (step (step w (call r now op)) (flush_request now' byForce)).
  rewrite Hstep.
  rewrite (request_runs _ now' byForce (empty_document now)); simpl;
    rewrite ?Hq; try done.
Qed.

Lemma flush_after_failed_load_witness :
  sent (run fresh [call (GetHttp 503 BodyUnparsable) "t1" (OpAdd (cup "b" 1 1));
                   flush_request "t2" true]) =
    [{| objects := [cup "b" 1 1]; lastUpdated := "t2"; version := 1 |}].
Proof.
  apply (flush_after_failed_load fresh (GetHttp 503 BodyUnparsable) "t1" "t2"
           (OpAdd (cup "b" 1 1)) true); reflexivity.
Defined.

Lemma loadObjects_keeps r now s :
  pendingOperations (fst (loadObjects r now s)) = pendingOperations s ∧
  isProcessing (fst (loadObjects r now s)) = isProcessing s ∧
  timeout (fst (loadObjects r now s)) = timeout s.
Proof. unfold loadObjects. by destruct (loadObjects_try r now). Qed.

(** X3.  [loadObjects] and [syncObjects] replace the cache but leave the
    queue alone: the operations that were waiting are applied, at the next
    flush, to the items that the reload brought, and that is the document
    the flush puts. *)
Theorem reload_keeps_queue (w : World) (e : Event) (r : GetResponse)
    (now now' : string) (localObjects : list StoredObject) (byForce : bool) :
  e = CallLoad r now ∨ e = CallSync r now localObjects →
  isProcessing (service w) = false →
  pendingOperations (service w) ≠ [] →
  (byForce = false → timeout (service w) = true) →
  let w1 := step w e in
  pendingOperations (service w1) = pendingOperations (service w) ∧
  ∃ d, cache (service w1) = Some d ∧ objects d = served r ∧
       sent (step w1 (flush_request now' byForce)) =
         sent w ++ [{| objects := objects (apply_all (pendingOperations (service w)) d);
                       lastUpdated := now';
                       version := lastVersion (service w1) + 1 |}].
Proof.
  intros He Hp Hq Ht w1.
  assert (w1 = with_service (fst (loadObjects r now (service w))) w) as Hw1.
  { subst w1. destruct He as [-> | ->]; simpl; [done|].
    by rewrite syncObjects_state. }
  destruct (loadObjects_keeps r now (service w)) as (Hq1 & Hp1 & Ht1).
  destruct (loadObjects_cache_present r now (service w)) as (d & Hd & Hobjs).
  rewrite loadObjects_returns_served in Hobjs.
  rewrite Hw1. simpl. split; [done|].
  exists d. split_and!; [done|done|].
  rewrite (request_runs _ now' byForce d); simpl; rewrite ?Hq1, ?Hp1, ?Ht1; done.
Qed.

Lemma reload_keeps_queue_witness :
  let r := GetHttp 200 (BodyJson (Some {| r_objects := Some [cup "z" 3 3];
                                          r_lastUpdated := Some "t0";
                                          r_version := Some 7 |})) in
  let w := world_of [cup "a" 0 0] [OpAdd (cup "b" 1 1)] in
  ∃ d, cache (service (step w (CallLoad r "t1"))) = Some d ∧
       objects d = served r ∧
       sent (step (step w (CallLoad r "t1")) (flush_request "t2" true)) =
         sent w ++ [{| objects := objects (apply_all [OpAdd (cup "b" 1 1)] d);
                       lastUpdated := "t2";
                       version := lastVersion (service (step w (CallLoad r "t1"))) + 1 |}].
Proof.
  intros r w.
  apply (reload_keeps_queue w (CallLoad r "t1") r "t1" "t2" [] true); try done.
  by left.
Defined.

(** A flush that the guard lets through, followed by mutating calls while
    its PUT is in flight. *)
Lemma flight_then_calls w c now byForce calls :
  cache (service w) = Some c → isProcessing (service w) = false →
  pendingOperations (service w) ≠ [] →
  (byForce = false → timeout (service w) = true) →
  in_flight w = [] → Forall is_mutation calls →
  let body := {| objects := objects (apply_all (pendingOperations (service w)) c);
                 lastUpdated := now; version := lastVersion (service w) + 1 |} in
  run w (flush_request now byForce :: calls) =
    {| service :=
         {| cache := Some body; pendingOperations := operations_of calls;
            isProcessing := true; lastVersion := lastVersion (service w);
            timeout := match calls with
                       | [] => if byForce then timeout (service w) else false
                       | _ => true
                       end |};
       in_flight := [body]; sent := sent w ++ [body]; stored := stored w |}.
Proof.
  intros Hc Hp Hq Ht Hf Hcalls body.
  change (run w (flush_request now byForce :: calls))
    with (run (step w (flush_request now byForce)) calls).
  rewrite (request_runs w now byForce c Hc Hp Hq Ht). fold body.
  rewrite (run_calls calls _ body Hcalls) by done. simpl. by rewrite Hf.
Qed.

(** X4.  [forceSave] does not stop the timer that the call before it armed.
    After a mutating call and [forceSave] on an idle service, as in
    [handleRemoveObject], the timer is still armed; whether it fires before
    or after the PUT settles, it sends nothing: one PUT goes out in all. *)
Theorem forceSave_leaves_timer_armed (w : World) (c : StorageData)
    (r : GetResponse) (now now1 now2 : string) (op : Operation) (p : PutResponse) :
  cache (service w) = Some c → isProcessing (service w) = false →
  in_flight w = [] →
  let w1 := run w [call r now op; CallForceSave now1] in
  timeout (service w1) = true ∧
  ∃ body,
    sent w1 = sent w ++ [body] ∧
    sent (run w1 [TimerFires now2; PutSettles p]) = sent w ++ [body] ∧
    sent (run w1 [PutSettles p; TimerFires now2]) = sent w ++ [body].
Proof.
  intros Hc Hp Hf w1.
  destruct (call_is_mutation r now op) as [Hm Hop].
  assert (Forall is_mutation [call r now op]) as Hall by (by constructor).
  pose proof (run_calls [call r now op] w c Hall Hc) as Hrun.
  assert (operations_of [call r now op] = [op]) as Hops
    by (unfold operations_of; simpl; by rewrite Hop).
  rewrite Hops in Hrun.
  assert (w1 = step (run w [call r now op]) (flush_request now1 true)) as ->
    by done.
  rewrite Hrun.
  rewrite (request_runs _ now1 true c); simpl; try done;
    [|by destruct (pendingOperations (service w))].
  rewrite Hf. split; [done|]. eexists. split_and!; [done| |].
  - simpl. by destruct p as [|status]; simpl; [|destruct (ok status)].
  - destruct p as [|status]; simpl; [done|]. by destruct (ok status).
Qed.

Lemma forceSave_leaves_timer_armed_witness :
  let w1 := run (world_of [cup "a" 0 0] [])
              [call GetNetworkError "t1" (OpRemove "a"); CallForceSave "t2"] in
  timeout (service w1) = true ∧
  ∃ body,
    sent w1 = [body] ∧
    sent (run w1 [TimerFires "t3"; PutSettles (PutHttp 200)]) = [body] ∧
    sent (run w1 [PutSettles (PutHttp 200); TimerFires "t3"]) = [body].
Proof.
  apply (forceSave_leaves_timer_armed (world_of [cup "a" 0 0] [])
           {| objects := [cup "a" 0 0]; lastUpdated := "t0"; version := 1 |}
           GetNetworkError "t1" "t2" "t3" (OpRemove "a") (PutHttp 200));
    reflexivity.
Defined.

(** X5.  Operations that are queued while a PUT is in flight are thrown away
    with the queue when that PUT fails: they are never applied to the cache
    and never sent, although their calls answered [true]; the timer that
    they armed finds an empty queue and sends nothing. *)
Theorem calls_during_failed_flush_are_lost (w : World) (c : StorageData)
    (now now2 : string) (byForce : bool) (calls : list Event) (p : PutResponse) :
  cache (service w) = Some c → isProcessing (service w) = false →
  pendingOperations (service w) ≠ [] →
  (byForce = false → timeout (service w) = true) →
  in_flight w = [] → Forall is_mutation calls → put_ok p = false →
  let body := {| objects := objects (apply_all (pendingOperations (service w)) c);
                 lastUpdated := now; version := lastVersion (service w) + 1 |} in
  let w' := run w (flush_request now byForce :: calls ++ [PutSettles p]) in
  cache (service w') = Some body ∧ pendingOperations (service w') = [] ∧
  isProcessing (service w') = false ∧ sent w' = sent w ++ [body] ∧
  cache (service (step w' (TimerFires now2))) = Some body ∧
  sent (step w' (TimerFires now2)) = sent w ++ [body].
Proof.
  intros Hc Hp Hq Ht Hf Hcalls Hfail body w'. subst w'.
  rewrite app_comm_cons, run_app.
  rewrite (flight_then_calls w c now byForce calls Hc Hp Hq Ht Hf Hcalls).
  fold body. simpl. rewrite flush_end_failure by done. simpl.
  split_and!; try done; by destruct calls, byForce, (timeout (service w)).
Qed.

Lemma calls_during_failed_flush_are_lost_witness :
  let w' := run (world_of [cup "a" 0 0] [OpUpdate "a" 5 5])
              (flush_request "t1" true
                 :: [CallAdd GetNetworkError "t2" (cup "b" 1 1)]
                 ++ [PutSettles (PutHttp 500)]) in
  getCurrentObjects (service w') = [cup "a" 5 5] ∧
  pendingOperations (service w') = [] ∧
  length (sent (step w' (TimerFires "t3"))) = 1%nat.
Proof.
  destruct (calls_during_failed_flush_are_lost
              (world_of [cup "a" 0 0] [OpUpdate "a" 5 5])
              {| objects := [cup "a" 0 0]; lastUpdated := "t0"; version := 1 |}
              "t1" "t3" true [CallAdd GetNetworkError "t2" (cup "b" 1 1)]
              (PutHttp 500))
    as (H1 & H2 & _ & _ & _ & H6);
    [reflexivity|reflexivity|discriminate|done|reflexivity|repeat constructor
    |reflexivity|].
  intros w'. fold w' in H1, H2, H6. split_and!.
  - unfold getCurrentObjects. by rewrite H1.
  - exact H2.
  - by rewrite H6.
Defined.

(** X6.  When the PUT in flight succeeds, the operations queued meanwhile
    stay in the queue with the timer armed; when the timer fires they are
    applied to the cache and put as the next version. *)
Theorem calls_during_flush_go_with_the_next (w : World) (c : StorageData)
    (now now2 : string) (byForce : bool) (calls : list Event) (p : PutResponse) :
  cache (service w) = Some c → isProcessing (service w) = false →
  pendingOperations (service w) ≠ [] →
  (byForce = false → timeout (service w) = true) →
  in_flight w = [] → Forall is_mutation calls → calls ≠ [] →
  put_ok p = true →
  let body := {| objects := objects (apply_all (pendingOperations (service w)) c);
                 lastUpdated := now; version := lastVersion (service w) + 1 |} in
  let next := {| objects := objects (apply_all (operations_of calls) body);
                 lastUpdated := now2; version := lastVersion (service w) + 2 |} in
  let w' := run w (flush_request now byForce :: calls ++ [PutSettles p]) in
  pendingOperations (service w') = operations_of calls ∧
  getCurrentObjects (service w') = objects body ∧
  stored w' = Some body ∧
  sent (step w' (TimerFires now2)) = sent w ++ [body; next] ∧
  cache (service (step w' (TimerFires now2))) = Some next.
Proof.
  intros Hc Hp Hq Ht Hf Hcalls Hne Hok body next w'.
  assert (w' =
    {| service := {| cache := Some body; pendingOperations := operations_of calls;
                     isProcessing := false;
                     lastVersion := lastVersion (service w) + 1;
                     timeout := true |};
       in_flight := []; sent := sent w ++ [body]; stored := Some body |}) as ->.
  { subst w'. rewrite app_comm_cons, run_app.
    rewrite (flight_then_calls w c now byForce calls Hc Hp Hq Ht Hf Hcalls).
    fold body. simpl. erewrite flush_end_success by done. rewrite Hok. simpl.
    by destruct calls. }
  assert (operations_of calls ≠ []) as Hops.
  { intros Hnil. by apply Hne, operations_of_nil. }
  change (TimerFires now2) with (flush_request now2 false).
  rewrite (request_runs _ now2 false body) by done. simpl.
  replace (lastVersion (service w) + 1 + 1) with (lastVersion (service w) + 2)
    by lia.
  rewrite <- app_assoc. done.
Qed.

Lemma calls_during_flush_go_with_the_next_witness :
  let w' := run (world_of [cup "a" 0 0] [OpUpdate "a" 5 5])
              (flush_request "t1" true
                 :: [CallAdd GetNetworkError "t2" (cup "b" 1 1)]
                 ++ [PutSettles (PutHttp 200)]) in
  pendingOperations (service w') = [OpAdd (cup "b" 1 1)] ∧
  sent (step w' (TimerFires "t3")) =
    [{| objects := [cup "a" 5 5]; lastUpdated := "t1"; version := 2 |};
     {| objects := [cup "a" 5 5; cup "b" 1 1]; lastUpdated := "t3"; version := 3 |}].
Proof.
  destruct (calls_during_flush_go_with_the_next
              (world_of [cup "a" 0 0] [OpUpdate "a" 5 5])
              {| objects := [cup "a" 0 0]; lastUpdated := "t0"; version := 1 |}
              "t1" "t3" true [CallAdd GetNetworkError "t2" (cup "b" 1 1)]
              (PutHttp 200))
    as (H1 & _ & _ & H4 & _);
    [reflexivity|reflexivity|discriminate|done|reflexivity|repeat constructor
    |discriminate|reflexivity|].
  intros w'. split; [exact H1|exact H4].
Defined.

(** X7.  When the timer fires while a PUT is in flight, the flush is skipped
    and the timer is spent.  The operations queued during the flight then
    stay in the queue after the PUT has succeeded, with no timer armed:
    nothing sends them until another call or [forceSave] comes. *)
Theorem timer_during_flush_strands_queue (w : World) (c : StorageData)
    (now now2 : string) (byForce : bool) (calls : list Event) (p : PutResponse) :
  cache (service w) = Some c → isProcessing (service w) = false →
  pendingOperations (service w) ≠ [] →
  (byForce = false → timeout (service w) = true) →
  in_flight w = [] → Forall is_mutation calls → calls ≠ [] →
  put_ok p = true →
  let w' := run w (flush_request now byForce :: calls
                     ++ [TimerFires now2; PutSettles p]) in
  pendingOperations (service w') = operations_of calls ∧
  pendingOperations (service w') ≠ [] ∧
  timeout (service w') = false ∧ in_flight w' = [] ∧
  length (sent w') = S (length (sent w)) ∧
  ∀ later, Forall (λ e, ∃ t, e = TimerFires t) later → run w' later = w'.
Proof.
  intros Hc Hp Hq Ht Hf Hcalls Hne Hok w'.
  set (body := {| objects := objects (apply_all (pendingOperations (service w)) c);
                  lastUpdated := now; version := lastVersion (service w) + 1 |}).
  assert (w' =
    {| service := {| cache := Some body; pendingOperations := operations_of calls;
                     isProcessing := false;
                     lastVersion := lastVersion (service w) + 1;
                     timeout := false |};
       in_flight := []; sent := sent w ++ [body]; stored := Some body |}) as ->.
  { subst w'. rewrite app_comm_cons, run_app.
    rewrite (flight_then_calls w c now byForce calls Hc Hp Hq Ht Hf Hcalls).
    fold body.
    assert (match calls with
            | [] => if byForce then timeout (service w) else false
            | _ :: _ => true
            end = true) as -> by (by destruct calls).
    simpl. erewrite flush_end_success by done. by rewrite Hok. }
  assert (operations_of calls ≠ []) as Hops.
  { intros Hnil. by apply Hne, operations_of_nil. }
  simpl. split_and!; try done.
  - rewrite length_app. simpl. lia.
  - intros later Hlater. induction Hlater as [|e later [t ->] _ IH]; [done|].
    done.
Qed.

Lemma timer_during_flush_strands_queue_witness :
  let w' := run (world_of [cup "a" 0 0] [OpUpdate "a" 5 5])
              (flush_request "t1" true
                 :: [CallAdd GetNetworkError "t2" (cup "b" 1 1)]
                 ++ [TimerFires "t3"; PutSettles (PutHttp 200)]) in
  pendingOperations (service w') = [OpAdd (cup "b" 1 1)] ∧
  timeout (service w') = false ∧
  run w' [TimerFires "t4"; TimerFires "t5"] = w'.
Proof.
  destruct (timer_during_flush_strands_queue
              (world_of [cup "a" 0 0] [OpUpdate "a" 5 5])
              {| objects := [cup "a" 0 0]; lastUpdated := "t0"; version := 1 |}
              "t1" "t3" true [CallAdd GetNetworkError "t2" (cup "b" 1 1)]
              (PutHttp 200))
    as (H1 & _ & H3 & _ & _ & H6);
    [reflexivity|reflexivity|discriminate|done|reflexivity|repeat constructor
    |discriminate|reflexivity|].
  intros w'. split_and!; [exact H1|exact H3|].
  apply H6. repeat constructor; eauto.
Defined.

(** The service has a cache, or else nothing is queued, no timer is armed
    and no PUT is in flight. *)
Lemma step_queue_needs_cache w e :
  (is_Some (cache (service w))
   ∨ (pendingOperations (service w) = [] ∧ timeout (service w) = false
      ∧ in_flight w = [])) →
  (is_Some (cache (service w)) → is_Some (cache (service (step w e)))) ∧
  (is_Some (cache (service (step w e)))
   ∨ (pendingOperations (service (step w e)) = []
      ∧ timeout (service (step w e)) = false
      ∧ in_flight (step w e) = [])).
Proof.
  intros Hw.
  assert (∀ r now s, is_Some (cache (fst (loadObjects r now s)))) as Hload.
  { intros r now s. destruct (loadObjects_cache_present r now s) as (c & -> & _).
    eauto. }
  assert (∀ r now s, is_Some (cache (ensure_loaded r now s))) as Hensure.
  { intros r now s. destruct (ensure_loaded_present r now s) as (c & -> & _).
    eauto. }
  assert (∀ now w0,
            (is_Some (cache (service w0)) →
             is_Some (cache (service (start_flush now w0)))) ∧
            (cache (service w0) = None → start_flush now w0 = w0)) as Hstart.
  { intros now w0. split.
    - intros [c Hc]. destruct (skips (service w0)) eqn:Hs.
      + rewrite start_flush_busy by done. eauto.
      + apply skips_false in Hs as (Hp & Hq & _). unfold start_flush.
        destruct (flush_begin_runs now (service w0) c Hc Hp Hq) as [-> _].
        simpl. eauto.
    - intros Hc. apply start_flush_busy, skips_true. tauto. }
  destruct e as [r now|r now object|r now objectId x' y'|r now objectId
                |r now localObjects|now|now|r]; simpl.
  - split; [intros _|left]; apply Hload.
  - split; [intros _|left]; apply Hensure.
  - split; [intros _|left]; apply Hensure.
  - split; [intros _|left]; apply Hensure.
  - rewrite syncObjects_state. split; [intros _|left]; apply Hload.
  - destruct (Hstart now w) as [Hsome Hnone]. split; [done|].
    destruct (cache (service w)) as [c|] eqn:Hc.
    + left. apply Hsome. eauto.
    + rewrite Hnone by done. rewrite Hc.
      destruct Hw as [[? ?]|?]; [done|by right].
  - destruct (timeout (service w)) eqn:Ht;
      [|split; [done|destruct Hw as [?|(? & ? & ?)]; [by left|by right]]].
    destruct (Hstart now (with_service (set_timeout false (service w)) w))
      as [Hsome _].
    destruct Hw as [Hc|(_ & ? & _)]; [|congruence].
    split; [done|]. left. by apply Hsome.
  - destruct (in_flight w) as [|body others] eqn:Hf;
      [split; [done|destruct Hw as [?|(? & ? & _)]; [by left|by right]]|].
    simpl.
    assert (cache (fst (flush_end r (service w))) = cache (service w)) as Hsame.
    { unfold flush_end. destruct r as [|status]; [done|].
      destruct (ok status); [|done].
      by destruct (cache (service w)) eqn:Hc. }
    rewrite Hsame. split; [done|].
    destruct Hw as [?|(_ & _ & ?)]; [by left|done].
Qed.

(** X8.  An operation is never queued, a timer never armed and a PUT never
    sent on a service without a cache, and a cache that is there is never
    taken away.  On every run of a new service a non-empty queue, an armed
    timer or a PUT in flight means that there is a cache, so the PUT that
    settles never finds [this.cache] null; and on every run of any service a
    cache once present stays. *)
Theorem queue_needs_cache (events : list Event) :
  (pendingOperations (service (run fresh events)) ≠ []
   ∨ timeout (service (run fresh events)) = true
   ∨ in_flight (run fresh events) ≠ [] →
   is_Some (cache (service (run fresh events)))) ∧
  (∀ w, is_Some (cache (service w)) → is_Some (cache (service (run w events)))).
Proof.
  assert (∀ evs w,
            (is_Some (cache (service w))
             ∨ (pendingOperations (service w) = [] ∧ timeout (service w) = false
                ∧ in_flight w = [])) →
            (is_Some (cache (service w)) → is_Some (cache (service (run w evs)))) ∧
            (is_Some (cache (service (run w evs)))
             ∨ (pendingOperations (service (run w evs)) = []
                ∧ timeout (service (run w evs)) = false
                ∧ in_flight (run w evs) = []))) as Hrun.
  { induction evs as [|e evs IH]; intros w Hw; [done|].
    destruct (step_queue_needs_cache w e Hw) as [Hkeep Hnext].
    destruct (IH (step w e) Hnext) as [Hkeep' Hnext'].
    change (run w (e :: evs)) with (run (step w e) evs). split; [|done].
    intros Hc. by apply Hkeep', Hkeep. }
  split.
  - destruct (Hrun events fresh) as [_ [Hc|(Hq & Ht & Hf)]]; [by right|done|].
    intros [?|[?|?]]; [done|congruence|done].
  - intros w Hc. destruct (Hrun events w) as [Hkeep _]; [by left|]. by apply Hkeep.
Qed.

Lemma queue_needs_cache_witness :
  is_Some (cache (service (run fresh [CallRemove GetNetworkError "t1" "a"]))).
Proof.
  apply (proj1 (queue_needs_cache [CallRemove GetNetworkError "t1" "a"])).
  left. discriminate.
Defined.

(** ** The items of the document *)

Lemma elem_of_ids_filter (P : StoredObject → Prop) `{∀ obj, Decision (P obj)}
    (l : list StoredObject) (i : string) :
  i ∈ map id (filter P l) → i ∈ map id l.
Proof.
  intros (obj & -> & [_ Hin]%list_elem_of_filter)%list_elem_of_fmap.
  apply list_elem_of_fmap. eauto.
Qed.

Lemma NoDup_ids_filter (P : StoredObject → Prop) `{∀ obj, Decision (P obj)}
    (l : list StoredObject) :
  NoDup (map id l) → NoDup (map id (filter P l)).
Proof.
  induction l as [|obj l IH]; [done|]. simpl.
  intros [Hnot Hl]%NoDup_cons. destruct (decide (P obj)).
  - rewrite filter_cons_True by done. simpl. apply NoDup_cons. split; [|by apply IH].
    intros Hin. by apply Hnot, (elem_of_ids_filter P).
  - rewrite filter_cons_False by done. by apply IH.
Qed.

Lemma update_keeps_ids objectId x' y' c :
  map id (objects (apply_operation (OpUpdate objectId x' y') c)) = map id (objects c).
Proof.
  simpl. induction (objects c) as [|obj l IH]; [done|].
  simpl. rewrite IH. by destruct (decide (id obj = objectId)).
Qed.

Lemma filter_all {A} (P : A → Prop) `{∀ a, Decision (P a)} (l : list A) :
  (∀ a, a ∈ l → P a) → filter P l = l.
Proof.
  induction l as [|a l IH]; intros Hl; [done|].
  rewrite filter_cons_True by (apply Hl; left).
  rewrite IH; [done|]. intros b Hb. apply Hl. by right.
Qed.

Lemma apply_operation_unique op c :
  NoDup (map id (objects c)) → NoDup (map id (objects (apply_operation op c))).
Proof.
  intros Hc. destruct op as [object|objectId x' y'|objectId].
  - simpl. rewrite map_app. simpl. apply NoDup_app. split_and!.
    + by apply NoDup_ids_filter.
    + intros i (obj & -> & [Hne _]%list_elem_of_filter)%list_elem_of_fmap
        Hin%list_elem_of_singleton. done.
    + apply NoDup_singleton.
  - by rewrite update_keeps_ids.
  - simpl. by apply NoDup_ids_filter.
Qed.

(** X9.  Whatever is queued, the flush keeps the ids of the document
    distinct: if no two items of the cache share an id, none do after the
    operations of the queue were applied. *)
Theorem ids_stay_unique (ops : list Operation) (c : StorageData) :
  NoDup (map id (objects c)) → NoDup (map id (objects (apply_all ops c))).
Proof.
  revert c. induction ops as [|op ops IH]; intros c Hc; [done|].
  simpl. apply IH. by apply apply_operation_unique.
Qed.

Lemma ids_stay_unique_witness :
  NoDup (map id (objects (apply_all
           [OpAdd (cup "a" 5 5); OpUpdate "b" 1 1; OpAdd (cup "c" 2 2)]
           {| objects := [cup "a" 0 0; cup "b" 0 0]; lastUpdated := "t0";
              version := 1 |}))).
Proof.
  apply (ids_stay_unique
           [OpAdd (cup "a" 5 5); OpUpdate "b" 1 1; OpAdd (cup "c" 2 2)]).
  simpl. repeat (apply NoDup_cons; split;
                 [rewrite ?elem_of_cons, elem_of_nil; intros H;
                  repeat (destruct H as [H|H]; [discriminate|]); done|]).
  apply NoDup_nil_2.
Defined.

(** X10.  The closure of [updateObject] keeps the items, their ids and
    their order, and changes nothing but [x] and [y] of the items with its
    id; when no item has that id, the document stays as it is. *)
Theorem update_moves_only_its_id (objectId : string) (x' y' : float)
    (c : StorageData) :
  let c' := apply_operation (OpUpdate objectId x' y') c in
  map id (objects c') = map id (objects c) ∧
  map name (objects c') = map name (objects c) ∧
  map type (objects c') = map type (objects c) ∧
  map emoji (objects c') = map emoji (objects c) ∧
  map color (objects c') = map color (objects c) ∧
  map isText (objects c') = map isText (objects c) ∧
  (∀ k obj, objects c !! k = Some obj →
     ∃ obj', objects c' !! k = Some obj' ∧
             if decide (id obj = objectId)
             then x obj' = x' ∧ y obj' = y'
             else obj' = obj) ∧
  (objectId ∉ map id (objects c) → c' = c).
Proof.
  intros c'. subst c'.
  assert (∀ {B} (f : StoredObject → B),
            (∀ obj, f {| id := id obj; name := name obj; x := x'; y := y';
                         type := type obj; emoji := emoji obj;
                         color := color obj; isText := isText obj |} = f obj) →
            map f (objects (apply_operation (OpUpdate objectId x' y') c))
            = map f (objects c)) as Hkeep.
  { intros B f Hf. simpl. induction (objects c) as [|obj l IH]; [done|].
    simpl. rewrite IH. destruct (decide (id obj = objectId)); by rewrite ?Hf. }
  split_and!; try (by apply Hkeep).
  - intros k obj Hk. simpl.
    change (map ?f ?l !! k) with ((f <$> l) !! k).
    rewrite list_lookup_fmap, Hk. simpl. eexists. split; [done|].
    by destruct (decide (id obj = objectId)).
  - intros Hnot. clear Hkeep. destruct c as [objs lu v]. simpl in *. f_equal.
    induction objs as [|obj l IH]; [done|]. simpl in *.
    apply not_elem_of_cons in Hnot as [Hne Hnot].
    rewrite (IH Hnot). destruct (decide (id obj = objectId)); congruence.
Qed.

Lemma update_moves_only_its_id_witness :
  let c := {| objects := [cup "a" 0 0; cup "b" 2 2]; lastUpdated := "t0";
              version := 1 |} in
  apply_operation (OpUpdate "zz" 5 5) c = c.
Proof.
  intros c.
  destruct (update_moves_only_its_id "zz" 5 5 c) as (_ & _ & _ & _ & _ & _ & _ & H).
  apply H. simpl. rewrite !elem_of_cons, elem_of_nil. intros [?|[?|?]]; done.
Defined.

(** X11.  The closure of [removeObject] takes out every item with its id
    and keeps the others; a second removal of the same id changes nothing,
    and neither does the removal of an id that no item has.  Through the
    service the removal of an unknown id still costs a write: [forceSave]
    puts the same items again under the next version. *)
Theorem remove_takes_every_item_with_id (objectId : string) (c : StorageData) :
  let c' := apply_operation (OpRemove objectId) c in
  (objectId ∉ map id (objects c')) ∧
  (∀ obj, obj ∈ objects c → id obj ≠ objectId → obj ∈ objects c') ∧
  apply_operation (OpRemove objectId) c' = c' ∧
  (objectId ∉ map id (objects c) → c' = c) ∧
  (∀ (w : World) (r : GetResponse) (now now' : string),
     cache (service w) = Some c → isProcessing (service w) = false →
     pendingOperations (service w) = [] →
     objectId ∉ map id (objects c) →
     sent (run w [CallRemove r now objectId; CallForceSave now']) =
       sent w ++ [{| objects := objects c; lastUpdated := now';
                     version := lastVersion (service w) + 1 |}]).
Proof.
  intros c'. subst c'.
  assert (objectId ∉ map id (objects c) →
          apply_operation (OpRemove objectId) c = c) as Habsent.
  { intros Hnot. destruct c as [objs lu v]. simpl in *. f_equal.
    apply filter_all. intros obj Hin Heq. apply Hnot.
    apply list_elem_of_fmap. eauto. }
  assert (objectId ∉ map id (objects (apply_operation (OpRemove objectId) c)))
    as Hgone.
  { simpl. intros (obj & -> & [Hne _]%list_elem_of_filter)%list_elem_of_fmap.
    done. }
  split_and!; try done.
  - intros obj Hin Hne. simpl. by apply list_elem_of_filter.
  - simpl. f_equal. apply filter_all.
    by intros obj [Hne _]%list_elem_of_filter.
  - intros w r now now' Hc Hp Hq Hnot.
    assert (Forall is_mutation [CallRemove r now objectId]) as Hall
      by (by constructor).
    change (run w [CallRemove r now objectId; CallForceSave now'])
      with (step (run w [CallRemove r now objectId]) (flush_request now' true)).
    rewrite (run_calls _ w c Hall Hc).
    rewrite (request_runs _ now' true c); simpl; rewrite ?Hq; try done.
    unfold apply_all. simpl. by rewrite filter_all by
      (intros obj Hin Heq; apply Hnot, list_elem_of_fmap; eauto).
Qed.

Lemma remove_takes_every_item_with_id_witness :
  sent (run (world_of [cup "a" 0 0] [])
          [CallRemove GetNetworkError "t1" "zz"; CallForceSave "t2"]) =
    [{| objects := [cup "a" 0 0]; lastUpdated := "t2"; version := 2 |}].
Proof.
  destruct (remove_takes_every_item_with_id "zz"
              {| objects := [cup "a" 0 0]; lastUpdated := "t0"; version := 1 |})
    as (_ & _ & _ & _ & H).
  apply (H (world_of [cup "a" 0 0] []) GetNetworkError "t1" "t2");
    try reflexivity.
  simpl. rewrite elem_of_cons, elem_of_nil. intros [?|?]; done.
Defined.

(** ** syncObjects again *)

Lemma local_only_app serverObjects l1 l2 :
  local_only serverObjects (l1 ++ l2)
  = local_only serverObjects l1 ++ local_only serverObjects l2.
Proof. unfold local_only. apply filter_app. Qed.

Lemma local_only_server serverObjects :
  local_only serverObjects serverObjects = [].
Proof.
  unfold local_only. apply filter_none. intros obj Hin Hnot.
  apply Hnot, list_elem_of_fmap. eauto.
Qed.

Lemma local_only_twice serverObjects localObjects :
  local_only serverObjects (local_only serverObjects localObjects)
  = local_only serverObjects localObjects.
Proof.
  unfold local_only. apply filter_all.
  by intros obj [Hnot _]%list_elem_of_filter.
Qed.

(** X13.  The merge of [syncObjects] never drops an id that the caller
    holds; merging its own result again under the same response returns
    that result unchanged; and when neither the server's items nor the
    local items repeat an id, the merged list does not either. *)
Theorem syncObjects_is_stable (r : GetResponse) (now now2 : string)
    (localObjects : list StoredObject) (s : State) :
  let merged := snd (syncObjects r now localObjects s) in
  (∀ obj, obj ∈ localObjects → id obj ∈ map id merged) ∧
  snd (syncObjects r now2 merged (fst (syncObjects r now localObjects s)))
    = merged ∧
  (NoDup (map id (served r)) → NoDup (map id localObjects) →
   NoDup (map id merged)).
Proof.
  intros merged. subst merged.
  destruct (syncObjects_result r now localObjects s) as [_ ->].
  split_and!.
  - intros obj Hin. rewrite map_app. apply elem_of_app.
    destruct (decide (id obj ∈ map id (served r))) as [?|Hnot]; [by left|].
    right. apply list_elem_of_fmap. exists obj. split; [done|].
    unfold local_only. by apply list_elem_of_filter.
  - destruct (syncObjects_result r now2
                (served r ++ local_only (served r) localObjects)
                (fst (syncObjects r now localObjects s))) as [_ ->].
    by rewrite local_only_app, local_only_server, local_only_twice.
  - intros Hserver Hlocal. rewrite map_app. apply NoDup_app. split_and!.
    + done.
    + intros i Hi (obj & -> & [Hnot _]%list_elem_of_filter)%list_elem_of_fmap.
      done.
    + unfold local_only. by apply NoDup_ids_filter.
Qed.

Lemma syncObjects_is_stable_witness :
  let r := GetHttp 200 (BodyJson (Some {| r_objects := Some [cup "1" 3 4];
                                          r_lastUpdated := Some "t0";
                                          r_version := Some 1 |})) in
  "2" ∈ map id (snd (syncObjects r "t1" [cup "1" 9 4; cup "2" 1 1] initial)).
Proof.
  intros r.
  destruct (syncObjects_is_stable r "t1" "t2" [cup "1" 9 4; cup "2" 1 1] initial)
    as (H & _ & _).
  apply (H (cup "2" 1 1)). rewrite !elem_of_cons. tauto.
Defined.

(** ** The arrays behind the lists: calls in sequence *)

Lemma length_alloc_grows (a : list StoredObject) (h : Heap) :
  (length h < length (h ++ [a]))%nat.
Proof. rewrite length_app. simpl. lia. Qed.

Lemma run_operation_heap_frame m op :
  (length (heap m) ≤ length (heap (run_operation_heap m op)))%nat ∧
  ∀ l, (l < length (heap m))%nat →
       read (heap (run_operation_heap m op)) l = read (heap m) l.
Proof.
  unfold run_operation_heap.
  destruct (m_cache m) as [c|]; [|done].
  destruct op as [object|objectId x' y'|objectId]; simpl.
  - rewrite length_push, length_app. simpl. split; [lia|].
    intros l Hl. rewrite read_push_other by lia. by apply read_alloc_old.
  - rewrite length_app. simpl. split; [lia|]. intros l Hl. by apply read_alloc_old.
  - rewrite length_app. simpl. split; [lia|]. intros l Hl. by apply read_alloc_old.
Qed.

Lemma array_step_frame m a :
  (length (heap m) ≤ length (heap (array_step m a)))%nat ∧
  ∀ l, (l < length (heap m))%nat → read (heap (array_step m a)) l = read (heap m) l.
Proof.
  destruct a as [r now|r now localObjects|op|]; simpl.
  - destruct (loadObjects_heap_spec r now m) as (Hgrow & Hold & _).
    split; [lia|done].
  - unfold syncObjects_heap.
    destruct (loadObjects_heap_spec r now m) as (Hgrow & Hold & Hserver & _).
    destruct (loadObjects_heap r now m) as [m1 serverObjects]. simpl in *.
    destruct (foldl_merge_step_heap serverObjects (length (heap m1))
                (read (heap m1 ++ [read (heap m1) serverObjects]) localObjects)
                (heap m1 ++ [read (heap m1) serverObjects]))
      as (Hlen & Hother & _); [lia|apply length_alloc_grows|].
    cbv zeta in Hlen, Hother. rewrite Hlen, length_app. simpl. split; [lia|].
    intros l Hl. rewrite Hother by lia. rewrite read_alloc_old by lia.
    by apply Hold.
  - destruct (run_operation_heap_frame m op) as [Hgrow Hold]. done.
  - unfold getCurrentObjects_heap. destruct (m_cache m); simpl; [done|].
    rewrite length_app. simpl. split; [lia|].
    intros l Hl. by apply read_alloc_old.
Qed.

(** X12.  The service never changes an array that exists: whatever it is
    called to do afterwards (loads, syncs, the closures of the queue,
    [getCurrentObjects]), an array keeps its elements.  In particular the
    array that [loadObjects] returned, which is the array of the cache at
    that moment and which the component keeps as its state, still holds the
    loaded items. *)
Theorem arrays_are_never_changed (m : Machine) (calls : list ArrayCall) :
  (∀ l, (l < length (heap m))%nat →
        read (heap (foldl array_step m calls)) l = read (heap m) l) ∧
  (∀ r now,
     let m1 := fst (loadObjects_heap r now m) in
     let serverObjects := snd (loadObjects_heap r now m) in
     read (heap (foldl array_step m1 calls)) serverObjects
       = snd (loadObjects r now (contents m))).
Proof.
  assert (∀ calls m l, (l < length (heap m))%nat →
            read (heap (foldl array_step m calls)) l = read (heap m) l) as Hframe.
  { clear. induction calls as [|a calls IH]; intros m l Hl; [done|].
    destruct (array_step_frame m a) as [Hgrow Hold].
    simpl. rewrite IH by lia. by apply Hold. }
  split; [by apply Hframe|].
  intros r now m1 serverObjects.
  destruct (loadObjects_heap_spec r now m) as (_ & _ & Hserver & _ & Hread & _).
  fold m1 serverObjects in Hserver, Hread.
  rewrite Hframe by done. done.
Qed.

Lemma arrays_are_never_changed_witness :
  let m := {| heap := []; m_cache := None; m_pendingOperations := [];
              m_isProcessing := false; m_lastVersion := 0; m_timeout := false |} in
  let r := GetHttp 200 (BodyJson (Some {| r_objects := Some [cup "a" 0 0];
                                          r_lastUpdated := Some "t0";
                                          r_version := Some 1 |})) in
  read (heap (foldl array_step (fst (loadObjects_heap r "t1" m))
                [ArrayRun (OpAdd (cup "b" 1 1)); ArrayRun (OpRemove "a")]))
    (snd (loadObjects_heap r "t1" m))
  = [cup "a" 0 0].
Proof.
  intros m r.
  apply (proj2 (arrays_are_never_changed m
                  [ArrayRun (OpAdd (cup "b" 1 1)); ArrayRun (OpRemove "a")])
           r "t1").
Defined.

(** ** The handlers of the table component *)

Lemma expected_after_call w c r now op :
  cache (service w) = Some c →
  expected (service (step w (call r now op)))
  = objects (apply_operation op (apply_all (pendingOperations (service w)) c)).
Proof.
  intros Hc. destruct (call_is_mutation r now op) as [Hm Hop].
  assert (Forall is_mutation [call r now op]) as Hall by (by constructor).
  change (step w (call r now op)) with (run w [call r now op]).
  rewrite (run_calls _ w c Hall Hc). unfold expected, operations_of. simpl.
  rewrite Hop. simpl. by rewrite apply_all_app.
Qed.

(** A flush, run or skipped, does not change what the cache holds once the
    queue is applied. *)
Lemma expected_after_flush now w :
  expected (service (start_flush now w)) = expected (service w).
Proof.
  destruct (skips (service w)) eqn:Hs.
  - by rewrite start_flush_busy.
  - apply skips_false in Hs as (Hp & Hq & [c Hc]). unfold start_flush.
    destruct (flush_begin_runs now (service w) c Hc Hp Hq) as [-> _].
    unfold expected. simpl. by rewrite Hc.
Qed.

Lemma as_table_of_stored obj : as_table (tableObjectToStored obj) = obj.
Proof. by destruct obj. Qed.

Lemma as_table_ids l : map t_id (map as_table l) = map id l.
Proof. induction l as [|obj l IH]; [done|]. simpl. by rewrite IH. Qed.

Lemma as_table_filter objectId l :
  map as_table (filter (λ obj, id obj ≠ objectId) l)
  = filter (λ obj, t_id obj ≠ objectId) (map as_table l).
Proof.
  induction l as [|obj l IH]; [done|]. simpl.
  destruct (decide (id obj ≠ objectId)) as [Hne|Heq].
  - rewrite !filter_cons_True by done. simpl. by rewrite IH.
  - rewrite !filter_cons_False by done. done.
Qed.

Lemma as_table_update objectId newX newY l :
  map as_table
    (map (λ obj,
            if decide (id obj = objectId)
            then {| id := id obj; name := name obj; x := newX; y := newY;
                    type := type obj; emoji := emoji obj; color := color obj;
                    isText := isText obj |}
            else obj) l)
  = map (λ obj,
           if decide (t_id obj = objectId)
           then {| t_id := t_id obj; t_type := t_type obj;
                   t_emoji := t_emoji obj; t_color := t_color obj;
                   t_x := newX; t_y := newY; t_isText := t_isText obj |}
           else obj) (map as_table l).
Proof.
  induction l as [|obj l IH]; [done|].
  cbn [map]. rewrite IH. f_equal.
  change (t_id (as_table obj)) with (id obj).
  by destruct (decide (id obj = objectId)).
Qed.

(** X15.  The handlers of the table keep the list it shows in step with the
    service: if the component shows what the cache holds once the queue is
    applied, it still does after [handleObjectMove], after
    [handleRemoveObject] (whether its [forceSave] runs or is skipped), and
    after an object with a new id was placed. *)
Theorem handlers_keep_the_view_in_step (t : Table) (c : StorageData) :
  mirrors t → cache (service (backend t)) = Some c →
  (∀ r now newObject,
     t_id newObject ∉ map t_id (view t) →
     mirrors (placeObject r now newObject t)) ∧
  (∀ r now objectId newX newY,
     mirrors (handleObjectMove r now objectId newX newY t)) ∧
  (∀ r now now' objectId,
     mirrors (handleRemoveObject r now now' objectId t)).
Proof.
  unfold mirrors. intros Hview Hc.
  assert (expected (service (backend t))
          = objects (apply_all (pendingOperations (service (backend t))) c))
    as Hexp by (unfold expected; by rewrite Hc).
  rewrite Hexp in Hview.
  split_and!.
  - intros r now newObject Hfresh. unfold placeObject. cbn [view backend].
    change (CallAdd r now (tableObjectToStored newObject))
      with (call r now (OpAdd (tableObjectToStored newObject))).
    rewrite (expected_after_call (backend t) c r now
               (OpAdd (tableObjectToStored newObject)) Hc).
    simpl. rewrite map_app. simpl. rewrite as_table_of_stored, Hview. f_equal.
    f_equal. symmetry. apply filter_all. intros obj Hin Heq.
    apply Hfresh. rewrite Hview, as_table_ids. simpl in Heq. rewrite <- Heq.
    apply list_elem_of_fmap. eauto.
  - intros r now objectId newX newY. unfold handleObjectMove. cbn [view backend].
    change (CallUpdate r now objectId newX newY)
      with (call r now (OpUpdate objectId newX newY)).
    rewrite (expected_after_call (backend t) c r now
               (OpUpdate objectId newX newY) Hc).
    simpl. rewrite Hview. symmetry. apply as_table_update.
  - intros r now now' objectId. unfold handleRemoveObject. cbn [view backend].
    change (step ?w0 (CallForceSave now')) with (start_flush now' w0).
    rewrite expected_after_flush.
    change (CallRemove r now objectId) with (call r now (OpRemove objectId)).
    rewrite (expected_after_call (backend t) c r now (OpRemove objectId) Hc).
    simpl. by rewrite as_table_filter, Hview.
Qed.

Lemma handlers_keep_the_view_in_step_witness :
  let t := {| view := [as_table (cup "a" 0 0)];
              backend := world_of [cup "a" 0 0] [] |} in
  mirrors (handleRemoveObject GetNetworkError "t1" "t2" "a" t) ∧
  mirrors (handleObjectMove GetNetworkError "t1" "a" 5 5 t).
Proof.
  intros t.
  destruct (handlers_keep_the_view_in_step t
              {| objects := [cup "a" 0 0]; lastUpdated := "t0"; version := 1 |})
    as (_ & Hmove & Hremove); [reflexivity|reflexivity|].
  split; [apply Hremove|apply Hmove].
Defined.

(** Placing an object whose id the table already shows breaks the step: the
    component shows both, the cache keeps the new one only. *)
Example placing_a_known_id_shows_it_twice :
  let t := {| view := [as_table (cup "a" 0 0)];
              backend := world_of [cup "a" 0 0] [] |} in
  let t' := placeObject GetNetworkError "t1" (as_table (cup "a" 5 5)) t in
  length (view t') = 2%nat ∧ length (expected (service (backend t'))) = 1%nat.
Proof. vm_compute. split; reflexivity. Qed.

(** ** The text of a paper note *)

Section PaperFacts.

Context {char : Type} `{EqDecision char}.
Variable space dot : char.

Lemma split_on_nonempty (s : list char) : split_on space s ≠ [].
Proof.
  destruct s as [|c rest]; [done|]. simpl.
  destruct (decide (c = space)); [done|]. by destruct (split_on space rest).
Qed.

(** Joining what [split] gave is the string again. *)
Lemma join_split (s : list char) : join_with space (split_on space s) = s.
Proof.
  induction s as [|c rest IH]; [done|]. simpl.
  pose proof (split_on_nonempty rest) as Hne.
  destruct (decide (c = space)) as [->|Hc];
    destruct (split_on space rest) as [|word words]; try done.
  - simpl. by rewrite <- IH.
  - rewrite <- IH. by destruct words.
Qed.

Lemma length_join_head (word : list char) (words : list (list char)) :
  (length word ≤ length (join_with space (word :: words)))%nat.
Proof.
  destruct words as [|w ws]; simpl; [lia|]. rewrite length_app. lia.
Qed.

Lemma join_cons_cons (cur word : list char) (rest : list (list char)) :
  join_with space ((cur ++ space :: word) :: rest)
  = join_with space (cur :: word :: rest).
Proof.
  destruct rest as [|r rs]; simpl; [done|]. by rewrite <- app_assoc.
Qed.

Lemma wrap_count (maxChars maxLines : nat) (words : list (list char)) :
  ∀ lines cur, (length lines < maxLines)%nat →
    (length (fst (wrap space maxChars maxLines words lines cur)) ≤ maxLines)%nat.
Proof.
  induction words as [|word rest IH]; intros lines cur Hlt; simpl; [lia|].
  destruct ((maxChars <? length cur + length word + 1)%nat
            && (0 <? length cur)%nat).
  - destruct (Nat.leb_spec maxLines (length (lines ++ [cur]))) as [Hge|Hlt'].
    + simpl. rewrite length_app. simpl. lia.
    + by apply IH.
  - by apply IH.
Qed.

Lemma wrap_nonempty (maxChars maxLines : nat) (words : list (list char)) :
  ∀ lines cur, Forall (λ line, line ≠ []) lines →
    Forall (λ line, line ≠ []) (fst (wrap space maxChars maxLines words lines cur)).
Proof.
  induction words as [|word rest IH]; intros lines cur Hlines; simpl; [done|].
  destruct ((maxChars <? length cur + length word + 1)%nat
            && (0 <? length cur)%nat) eqn:Hcond.
  - assert (Forall (λ line, line ≠ []) (lines ++ [cur])) as Hnext.
    { apply Forall_app. split; [done|]. apply Forall_singleton.
      apply andb_true_iff in Hcond as [_ Hpos]. by destruct cur. }
    destruct (maxLines <=? length (lines ++ [cur]))%nat; [done|by apply IH].
  - by apply IH.
Qed.

Lemma wrap_width (maxChars maxLines : nat) (words : list (list char)) :
  ∀ lines cur,
    Forall (λ word, (length word ≤ maxChars)%nat) words →
    (length cur ≤ maxChars)%nat →
    Forall (λ line, (length line ≤ maxChars)%nat) lines →
    Forall (λ line, (length line ≤ maxChars)%nat)
      (fst (wrap space maxChars maxLines words lines cur)) ∧
    (length (snd (wrap space maxChars maxLines words lines cur)) ≤ maxChars)%nat.
Proof.
  induction words as [|word rest IH]; intros lines cur Hwords Hcur Hlines;
    simpl; [done|].
  apply Forall_cons in Hwords as [Hword Hrest].
  destruct (Nat.ltb_spec maxChars (length cur + length word + 1)) as [Hover|Hfits];
    simpl.
  - destruct (Nat.ltb_spec 0 (length cur)) as [Hpos|Hzero].
    + assert (Forall (λ line, (length line ≤ maxChars)%nat) (lines ++ [cur]))
        as Hnext by (apply Forall_app; split; [done|by apply Forall_singleton]).
      destruct (maxLines <=? length (lines ++ [cur]))%nat; [done|by apply IH].
    + destruct cur; [|simpl in Hzero; lia]. by apply IH.
  - apply IH; try done. destruct cur as [|c cur']; [done|].
    simpl in *. rewrite length_app. simpl. lia.
Qed.

(** A text that is not empty, does not begin with a space and fits on a
    line stays on the line on which the loop collects it. *)
Lemma wrap_fits (maxChars maxLines : nat) (words : list (list char)) :
  ∀ lines cur, cur ≠ [] →
    (length (join_with space (cur :: words)) ≤ maxChars)%nat →
    wrap space maxChars maxLines words lines cur
    = (lines, join_with space (cur :: words)).
Proof.
  induction words as [|word rest IH]; intros lines cur Hcur Hlen; [done|].
  cbn [wrap].
  assert (length cur + length word + 1 ≤ maxChars)%nat as Hfits.
  { pose proof (length_join_head word rest) as Hhead.
    change (join_with space (cur :: word :: rest))
      with (cur ++ space :: join_with space (word :: rest)) in Hlen.
    rewrite length_app in Hlen. cbn [length] in Hlen. lia. }
  destruct (Nat.ltb_spec maxChars (length cur + length word + 1)); [lia|].
  simpl. destruct cur as [|c cur']; [done|].
  rewrite IH; [by rewrite join_cons_cons|done|by rewrite join_cons_cons].
Qed.

Lemma length_ellipsis (line : list char) :
  length (ellipsis dot line) = Nat.max 3 (length line).
Proof.
  unfold ellipsis. rewrite length_app, length_take. simpl. lia.
Qed.

(** X16.  [formatTextForPaper] gives at most ten lines and never an empty
    one; the empty text gives no line at all. *)
Theorem formatTextForPaper_at_most_ten_lines (isMobile : bool) (text : list char) :
  (length (formatTextForPaper space dot isMobile text) ≤ 10)%nat ∧
  Forall (λ line, line ≠ []) (formatTextForPaper space dot isMobile text) ∧
  formatTextForPaper space dot isMobile [] = [].
Proof.
  split_and!; [| |by destruct isMobile].
  - unfold formatTextForPaper.
    pose proof (wrap_count (if isMobile then 8 else 12)%nat 10
                  (split_on space text) [] []) as Hcount.
    destruct (wrap space (if isMobile then 8 else 12)%nat 10
                (split_on space text) [] []) as [lines cur].
    simpl in Hcount. specialize (Hcount ltac:(lia)).
    set (lines2 := match cur with
                   | [] => lines
                   | _ => if (length lines <? 10)%nat then lines ++ [cur]
                          else lines
                   end).
    assert (length lines2 ≤ 10)%nat as H2.
    { subst lines2. destruct cur; [done|].
      destruct (Nat.ltb_spec (length lines) 10); [|done].
      rewrite length_app. simpl. lia. }
    destruct ((length lines2 =? 10)%nat && _); [by rewrite length_alter|done].
  - unfold formatTextForPaper.
    pose proof (wrap_nonempty (if isMobile then 8 else 12)%nat 10
                  (split_on space text) [] [] (Forall_nil_2 _)) as Hne.
    destruct (wrap space (if isMobile then 8 else 12)%nat 10
                (split_on space text) [] []) as [lines cur].
    simpl in Hne.
    set (lines2 := match cur with
                   | [] => lines
                   | _ => if (length lines <? 10)%nat then lines ++ [cur]
                          else lines
                   end).
    assert (Forall (λ line, line ≠ []) lines2) as H2.
    { subst lines2. destruct cur as [|c cur']; [done|].
      destruct (length lines <? 10)%nat; [|done].
      apply Forall_app. split; [done|]. by apply Forall_singleton. }
    destruct ((length lines2 =? 10)%nat && _); [|done].
    apply Forall_alter; [done|]. intros line _ _. unfold ellipsis.
    by destruct (take (length line - 3) line).
Qed.

(** X17.  When no word of the text is longer than the width of a line (8
    code units on a mobile, 12 otherwise), no line that
    [formatTextForPaper] gives is. *)
Theorem formatTextForPaper_width (isMobile : bool) (text : list char) :
  let width := (if isMobile then 8 else 12)%nat in
  Forall (λ word, (length word ≤ width)%nat) (split_on space text) →
  Forall (λ line, (length line ≤ width)%nat)
    (formatTextForPaper space dot isMobile text).
Proof.
  intros width Hwords. unfold formatTextForPaper. fold width.
  assert (3 ≤ width)%nat as H3 by (subst width; destruct isMobile; lia).
  destruct (wrap_width width 10 (split_on space text) [] [] Hwords)
    as [Hlines Hcur]; [simpl; lia|done|].
  destruct (wrap space width 10 (split_on space text) [] []) as [lines cur].
  simpl in Hlines, Hcur.
  set (lines2 := match cur with
                 | [] => lines
                 | _ => if (length lines <? 10)%nat then lines ++ [cur]
                        else lines
                 end).
  assert (Forall (λ line, (length line ≤ width)%nat) lines2) as H2.
  { subst lines2. destruct cur as [|c cur']; [done|].
    destruct (length lines <? 10)%nat; [|done].
    apply Forall_app. split; [done|]. by apply Forall_singleton. }
  destruct ((length lines2 =? 10)%nat && _); [|done].
  apply Forall_alter; [done|]. intros line _ Hline.
  rewrite length_ellipsis. lia.
Qed.

(** X18.  A text that is not empty, does not begin with a space and is not
    longer than the width of a line comes back as the one line it is. *)
Theorem formatTextForPaper_short_text (isMobile : bool) (c : char)
    (rest : list char) :
  c ≠ space →
  (length (c :: rest) ≤ if isMobile then 8 else 12)%nat →
  formatTextForPaper space dot isMobile (c :: rest) = [c :: rest].
Proof.
  intros Hc Hlen. unfold formatTextForPaper.
  pose proof (join_split (c :: rest)) as Hjoin.
  assert (∃ word words, split_on space (c :: rest) = (c :: word) :: words)
    as (word & words & Hsplit).
  { simpl. destruct (decide (c = space)); [done|].
    pose proof (split_on_nonempty rest).
    destruct (split_on space rest) as [|w ws]; [done|]. eauto. }
  rewrite Hsplit in Hjoin |- *.
  cbn [wrap length].
  change (0 <? 0)%nat with false. rewrite andb_false_r.
  rewrite wrap_fits; [|done|by rewrite Hjoin].
  rewrite Hjoin. simpl. done.
Qed.

End PaperFacts.

Example paper_wraps_words :
  paper false "the quick brown fox jumps over the lazy dog"
  = ["the quick"; "brown fox"; "jumps over"; "the lazy dog"].
Proof. vm_compute. reflexivity. Qed.

Example paper_cuts_after_ten_lines :
  paper true "aaaaaaa bbbbbbb ccccccc ddddddd eeeeeee fffffff ggggggg hhhhhhh iiiiiii jjjjjjj kkkkkkk lllllll"
  = ["aaaaaaa"; "bbbbbbb"; "ccccccc"; "ddddddd"; "eeeeeee"; "fffffff";
     "ggggggg"; "hhhhhhh"; "iiiiiii"; "jjjj..."].
Proof. vm_compute. reflexivity. Qed.

Lemma formatTextForPaper_width_witness :
  Forall (λ line, (length line ≤ 12)%nat)
    (formatTextForPaper " "%char "."%char false
       (String.list_ascii_of_string "the quick brown fox jumps over the lazy dog")).
Proof.
  apply (formatTextForPaper_width " "%char "."%char false
           (String.list_ascii_of_string "the quick brown fox jumps over the lazy dog")).
  vm_compute. repeat constructor.
Defined.

Lemma formatTextForPaper_short_text_witness :
  formatTextForPaper " "%char "."%char true (String.list_ascii_of_string "to do")
  = [String.list_ascii_of_string "to do"].
Proof.
  apply (formatTextForPaper_short_text " "%char "."%char true "t"%char
           (String.list_ascii_of_string "o do")).
  - discriminate.
  - simpl. lia.
Defined.

(** ** The debounce timer *)

(** X14.  A burst of mutating calls on an idle service arms one timer.
    Nothing is sent while the calls come; when the timer fires, one PUT
    carries the document with all their operations applied in the order of
    the calls, the queue is empty and the timer is spent, so that a timer
    event after it finds nothing to do. *)
Theorem burst_is_one_flush (w : World) (c : StorageData) (calls : list Event)
    (now now2 : string) :
  cache (service w) = Some c → isProcessing (service w) = false →
  pendingOperations (service w) = [] →
  Forall is_mutation calls → calls ≠ [] →
  let body := {| objects := objects (apply_all (operations_of calls) c);
                 lastUpdated := now; version := lastVersion (service w) + 1 |} in
  let w' := run w (calls ++ [TimerFires now]) in
  sent (run w calls) = sent w ∧
  sent w' = sent w ++ [body] ∧
  cache (service w') = Some body ∧
  pendingOperations (service w') = [] ∧
  timeout (service w') = false ∧
  step w' (TimerFires now2) = w'.
Proof.
  intros Hc Hp Hq Hcalls Hne body w'.
  assert (operations_of calls ≠ []) as Hops.
  { intros Hnil. by apply Hne, operations_of_nil. }
  assert (w' =
    {| service := {| cache := Some body; pendingOperations := [];
                     isProcessing := true;
                     lastVersion := lastVersion (service w); timeout := false |};
       in_flight := in_flight w ++ [body]; sent := sent w ++ [body];
       stored := stored w |}) as ->.
  { subst w'. rewrite run_app.
    change (run ?w0 [TimerFires now]) with (step w0 (flush_request now false)).
    rewrite (run_calls calls w c Hcalls Hc). rewrite Hq. simpl app.
    rewrite (request_runs _ now false c); try done. simpl. by destruct calls. }
  rewrite (run_calls calls w c Hcalls Hc). done.
Qed.

Lemma burst_is_one_flush_witness :
  let w' := run (world_of [cup "a" 0 0] [])
              ([CallUpdate GetNetworkError "t1" "a" 1 1;
                CallUpdate GetNetworkError "t2" "a" 2 2;
                CallUpdate GetNetworkError "t3" "a" 3 3] ++ [TimerFires "t4"]) in
  sent w' = [{| objects := [cup "a" 3 3]; lastUpdated := "t4"; version := 2 |}] ∧
  step w' (TimerFires "t5") = w'.
Proof.
  destruct (burst_is_one_flush (world_of [cup "a" 0 0] [])
              {| objects := [cup "a" 0 0]; lastUpdated := "t0"; version := 1 |}
              [CallUpdate GetNetworkError "t1" "a" 1 1;
               CallUpdate GetNetworkError "t2" "a" 2 2;
               CallUpdate GetNetworkError "t3" "a" 3 3] "t4" "t5")
    as (_ & H2 & _ & _ & _ & H6);
    [reflexivity|reflexivity|reflexivity|repeat constructor|discriminate|].
  intros w'. split; [exact H2|exact H6].
Defined.

(** X19.  A reload that comes while a PUT is in flight replaces the cache,
    and when the PUT then succeeds the service takes the version of the
    reloaded cache as the last-known version, not the version it has just
    put: the Remote Store holds [lastVersion + 1] while the service may
    count from an older number, and the cache no longer shows the
    operations that were flushed. *)
Theorem reload_during_flush_sets_version (w : World) (c : StorageData)
    (now now1 : string) (byForce : bool) (r : GetResponse) (p : PutResponse) :
  cache (service w) = Some c → isProcessing (service w) = false →
  pendingOperations (service w) ≠ [] →
  (byForce = false → timeout (service w) = true) →
  in_flight w = [] → put_ok p = true →
  let body := {| objects := objects (apply_all (pendingOperations (service w)) c);
                 lastUpdated := now; version := lastVersion (service w) + 1 |} in
  let w' := run w [flush_request now byForce; CallLoad r now1; PutSettles p] in
  stored w' = Some body ∧
  getCurrentObjects (service w') = served r ∧
  ∃ d, cache (service w') = Some d ∧ lastVersion (service w') = version d.
Proof.
  intros Hc Hp Hq Ht Hf Hok body w'. subst w'.
  change (run w [flush_request now byForce; CallLoad r now1; PutSettles p])
    with (step (step (step w (flush_request now byForce)) (CallLoad r now1))
            (PutSettles p)).
  rewrite (request_runs w now byForce c Hc Hp Hq Ht). fold body.
  set (s1 := {| cache := Some body; pendingOperations := [];
                isProcessing := true; lastVersion := lastVersion (service w);
                timeout := if byForce then timeout (service w) else false |}).
  cbn [step service with_service in_flight sent stored].
  rewrite Hf. cbn [app].
  destruct (loadObjects_cache_present r now1 s1) as (d & Hd & Hobjs).
  rewrite loadObjects_returns_served in Hobjs.
  rewrite (flush_end_success p _ d Hok Hd). rewrite Hok. simpl.
  split_and!; [done| |by exists d].
  unfold getCurrentObjects. simpl. by rewrite Hd.
Qed.

Lemma reload_during_flush_sets_version_witness :
  let r := GetHttp 200 (BodyJson (Some {| r_objects := Some [cup "a" 0 0];
                                          r_lastUpdated := Some "t0";
                                          r_version := Some 1 |})) in
  let w' := run (world_of [cup "a" 0 0] [OpUpdate "a" 5 5])
              [flush_request "t1" true; CallLoad r "t2"; PutSettles (PutHttp 200)] in
  stored w' = Some {| objects := [cup "a" 5 5]; lastUpdated := "t1"; version := 2 |}
  ∧ getCurrentObjects (service w') = [cup "a" 0 0].
Proof.
  intros r.
  destruct (reload_during_flush_sets_version
              (world_of [cup "a" 0 0] [OpUpdate "a" 5 5])
              {| objects := [cup "a" 0 0]; lastUpdated := "t0"; version := 1 |}
              "t1" "t2" true r (PutHttp 200))
    as (H1 & H2 & _);
    [reflexivity|reflexivity|discriminate|done|reflexivity|reflexivity|].
  intros w'. split; [exact H1|exact H2].
Defined.
